(** * Version comparison of osquery's SQLite extension

    A shallow embedding of [osquery/sql/sqlite_version.cpp]: the epoch
    comparator, the delimiter classifier, the segment scan, the remainder
    resolver, the scalar predicate [version_compare] and the four collations,
    followed by the properties of the specification that concern them.

    Conventions of the embedding.

    - A [std::string_view] (a pointer and a length) is a [string]: its
      characters are the bytes of the view, and any byte value may occur.
    - A TEXT value of SQLite is the [string] of its bytes; the predicate
      reads it through a character pointer, as a C string: [c_str], its
      bytes before the first NUL.
    - A C [int] is a [Z].  The lengths handed to [versionCompare] are C
      [int]s, so every difference the code forms (of two lengths, of two
      colon positions, of two character values, of two delimiter ranks) lies
      strictly between [-2^31] and [2^31]; lemma [versionCompare_int_range]
      shows that the value computed in [Z] is the value the C code returns.
    - Whether plain [char] is signed is left to the platform (it is signed on
      x86-64 and unsigned on AArch64 Linux): the development is parameterised
      by [char_is_signed].
    - Blocks of statements are values of [flow]: a block either executes a
      [return], or reaches its end with the values of the variables it
      assigned, or reads outside a view or vector (undefined behaviour in
      C++, kept as an explicit outcome so that its absence can be proved). *)

From Stdlib Require Import ZArith Ascii String List Bool Lia.
Import ListNotations.

Local Open Scope string_scope.
Local Open Scope Z_scope.

(** ** Control flow of a block of statements *)

Inductive flow (R A : Type) : Type :=
| Return (rc : R)
| Next (a : A)
| Undefined.

Arguments Return {R A} rc.
Arguments Next {R A} a.
Arguments Undefined {R A}.

Definition bind {R A B : Type} (m : flow R A) (k : A -> flow R B) : flow R B :=
  match m with
  | Return rc => Return rc
  | Next a => k a
  | Undefined => Undefined
  end.

Notation "x <- m ;; k" := (bind m (fun x => k))
  (at level 61, m at next level, right associativity).

(** The value a function call yields: its body always ends in a [return]. *)
Definition returned {R A : Type} (body : flow R A) : option R :=
  match body with
  | Return rc => Some rc
  | Next _ => None
  | Undefined => None
  end.

(** ** [std::string_view] *)

(** [s[i]]: reading at or past [s.size()] is undefined. *)
Definition at_index {R : Type} (s : string) (i : nat) : flow R ascii :=
  match String.get i s with
  | Some c => Next c
  | None => Undefined
  end.

(** [s[pos - 1]] for a [size_t pos]: at [pos = 0] the index wraps around to
    [SIZE_MAX], which is outside every view. *)
Definition at_index_minus_one {R : Type} (s : string) (pos : nat) : flow R ascii :=
  match pos with
  | O => Undefined
  | S p => at_index s p
  end.

(** [s.find(c)] for a one-character needle; [None] is [npos]. *)
Fixpoint find (s : string) (c : ascii) : option nat :=
  match s with
  | EmptyString => None
  | String a s' => if Ascii.eqb a c then Some O else option_map S (find s' c)
  end.

(** A C string: the bytes of a buffer before its first NUL byte.  This is what
    [strlen], [op[0]] and the construction of a [std::string] from a
    character pointer read of the pointer [sqlite3_value_text] returns. *)
Fixpoint c_str (s : string) : string :=
  match s with
  | EmptyString => EmptyString
  | String c s' => if Ascii.eqb c zero then EmptyString else String c (c_str s')
  end.

(** ** Characters *)

Definition byte_value (c : ascii) : Z := Z.of_N (N_of_ascii c).

(** [isdigit(c)] in the C locale: true for the ten digits only, whatever
    the signedness of [char]. *)
Definition isdigit (c : ascii) : bool :=
  (48 <=? byte_value c) && (byte_value c <=? 57).

(** ** The comparator *)

Definition compareEpoch (l_ver r_ver : string) : Z :=
  let l_epoch := find l_ver ":"%char in
  let r_epoch := find r_ver ":"%char in
  match l_epoch, r_epoch with
  | Some l, Some r => Z.of_nat l - Z.of_nat r
  | Some _, None => 1
  | None, Some _ => -1
  | None, None => 0
  end.

Definition delimiterPrecedence (c : ascii) : Z :=
  if Ascii.eqb c "~" then 1
  else if Ascii.eqb c "-" then 2
  else if Ascii.eqb c "^" then 3
  else if Ascii.eqb c "." then 4
  else if Ascii.eqb c ":" then 5
  else 0.

Definition compareRemainder (l_ver r_ver : string) (pos : nat) (diff : Z)
    (comp_remaining remainder_precedence : bool) : flow Z unit :=
  _ <- (if comp_remaining then
          _ <- (if Nat.eqb (String.length l_ver) pos then
                  c <- at_index r_ver pos ;;
                  if Ascii.eqb c "~" then Return 1
                  else if Ascii.eqb c "-" then Return 0
                  else if Ascii.eqb c "^" then Return (-1)
                  else
                    take_diff <-
                      (if negb (diff =? 0) then
                         if negb remainder_precedence then Next true
                         else d <- at_index_minus_one l_ver pos ;;
                              Next (negb (isdigit d))
                       else Next false) ;;
                    if (take_diff : bool) then Return diff else Next tt
                else Next tt) ;;
          if Nat.eqb (String.length r_ver) pos then
            c <- at_index l_ver pos ;;
            if Ascii.eqb c "~" then Return (-1)
            else if Ascii.eqb c "-" then Return 0
            else if Ascii.eqb c "^" then Return 1
            else
              take_diff <-
                (if negb (diff =? 0) then
                   if negb remainder_precedence then Next true
                   else d <- at_index_minus_one r_ver pos ;;
                        Next (negb (isdigit d))
                 else Next false) ;;
              if (take_diff : bool) then Return diff else Next tt
          else Next tt
        else Next tt) ;;
  Return (Z.of_nat (String.length l_ver) - Z.of_nat (String.length r_ver)).

Section Platform.

(** Signedness of plain [char] on the target. *)
Variable char_is_signed : bool.

(** [int(c)] for a [char c]. *)
Definition int_of_char (c : ascii) : Z :=
  if char_is_signed && (128 <=? byte_value c)
  then byte_value c - 256
  else byte_value c.

(** One iteration of the [for] loop of [versionCompare]; [continue] and the
    end of the body both hand [first_diff] to the next iteration. *)
Definition scan_body (l_ver r_ver : string) (delim_precedence : bool)
    (i : nat) (first_diff : Z) : flow Z Z :=
  l_c <- at_index l_ver i ;;
  r_c <- at_index r_ver i ;;
  let l_delim := delimiterPrecedence l_c in
  let r_delim := delimiterPrecedence r_c in
  if (l_delim =? 0) && (r_delim =? 0) then
    Next (if first_diff =? 0 then int_of_char l_c - int_of_char r_c
          else first_diff)
  else if l_delim =? 0 then Return 1
  else if r_delim =? 0 then Return (-1)
  else if negb (first_diff =? 0) then Return first_diff
  else if delim_precedence then
    let delim_diff := l_delim - r_delim in
    if negb (delim_diff =? 0) then Return delim_diff else Next first_diff
  else Next first_diff.

(** [for (size_t i = ...; i < min; i++)] with [n = min - i] iterations left. *)
Fixpoint scan_loop (l_ver r_ver : string) (delim_precedence : bool)
    (n i : nat) (first_diff : Z) : flow Z Z :=
  match n with
  | O => Next first_diff
  | S n' =>
      fd <- scan_body l_ver r_ver delim_precedence i first_diff ;;
      scan_loop l_ver r_ver delim_precedence n' (S i) fd
  end.

(** The part of [versionCompare] that follows the epoch check: the scan of
    the common prefix and what is done once it is exhausted. *)
Definition versionCompare_segments (l_ver r_ver : string)
    (delim_precedence comp_remaining remainder_precedence : bool) : flow Z unit :=
  let l_len := String.length l_ver in
  let r_len := String.length r_ver in
  let min := Nat.min l_len r_len in
  first_diff <- scan_loop l_ver r_ver delim_precedence min O 0 ;;
  if Nat.eqb l_len r_len then Return first_diff
  else compareRemainder l_ver r_ver min first_diff
         comp_remaining remainder_precedence.

(** The body of [versionCompare]; [l_ver] stands for the pair
    [(l_len, l_version)] and [r_ver] for [(r_len, r_version)]. *)
Definition versionCompare_body (l_ver r_ver : string)
    (epoch delim_precedence comp_remaining remainder_precedence : bool)
    : flow Z unit :=
  let l_len := String.length l_ver in
  let r_len := String.length r_ver in
  if Nat.eqb l_len 0 && Nat.eqb r_len 0 then Return 0
  else if Nat.eqb l_len 0 then Return (-1)
  else if Nat.eqb r_len 0 then Return 1
  else if String.eqb l_ver r_ver then Return 0
  else
    _ <- (if epoch then
            let epoch_diff := compareEpoch l_ver r_ver in
            if negb (epoch_diff =? 0) then Return epoch_diff else Next tt
          else Next tt) ;;
    versionCompare_segments l_ver r_ver
      delim_precedence comp_remaining remainder_precedence.

Definition versionCompare (l_ver r_ver : string)
    (epoch delim_precedence comp_remaining remainder_precedence : bool)
    : option Z :=
  returned (versionCompare_body l_ver r_ver
              epoch delim_precedence comp_remaining remainder_precedence).

(** ** The collation callbacks

    [pKey1] stands for the pair [(nKey1, pKey1)], [pKey2] for
    [(nKey2, pKey2)]; the unused [void*] argument is dropped. *)

Definition versionCollate (pKey1 pKey2 : string) : option Z :=
  versionCompare pKey1 pKey2 false false false false.

Definition versionCollateARCH (pKey1 pKey2 : string) : option Z :=
  versionCompare pKey1 pKey2 true false true true.

Definition versionCollateDPKG (pKey1 pKey2 : string) : option Z :=
  versionCompare pKey1 pKey2 true true false false.

Definition versionCollateRHEL (pKey1 pKey2 : string) : option Z :=
  versionCompare pKey1 pKey2 true true true false.

End Platform.

(** ** SQLite values

    Only what [versionCompareFunc] observes of a [sqlite3_value] is kept: its
    storage class, the bytes of a TEXT value (all of them: a TEXT value may
    hold NUL bytes) and the 64-bit integer of an INTEGER value. *)

Inductive sqlite3_type : Type :=
| SQLITE_INTEGER
| SQLITE_FLOAT
| SQLITE_TEXT
| SQLITE_BLOB
| SQLITE_NULL.

Inductive sqlite3_value : Type :=
| SqlInteger (i : Z)
| SqlFloat
| SqlText (s : string)
| SqlBlob (b : string)
| SqlNull.

Definition sqlite3_type_eqb (t u : sqlite3_type) : bool :=
  match t, u with
  | SQLITE_INTEGER, SQLITE_INTEGER => true
  | SQLITE_FLOAT, SQLITE_FLOAT => true
  | SQLITE_TEXT, SQLITE_TEXT => true
  | SQLITE_BLOB, SQLITE_BLOB => true
  | SQLITE_NULL, SQLITE_NULL => true
  | _, _ => false
  end.

Definition sqlite3_value_type (v : sqlite3_value) : sqlite3_type :=
  match v with
  | SqlInteger _ => SQLITE_INTEGER
  | SqlFloat => SQLITE_FLOAT
  | SqlText _ => SQLITE_TEXT
  | SqlBlob _ => SQLITE_BLOB
  | SqlNull => SQLITE_NULL
  end.

(** Conversion of a 64-bit integer to a C [int]: the low 32 bits, signed. *)
Definition int_of_int64 (i : Z) : Z := (i + 2 ^ 31) mod 2 ^ 32 - 2 ^ 31.

(** [sqlite3_value_text] and [sqlite3_value_int] on the storage classes the
    code calls them on; SQLite's conversions of the other classes are not
    modelled, and a call on one of them is an [Undefined] outcome.

    [sqlite3_value_text] returns a pointer to the bytes of the value followed
    by a NUL; the code never asks for the length of the value and reads the
    pointer as a C string ([strlen(l)], [strlen(r)], [op[0]], [strlen(op)],
    [ops.find(op)]), so what it gets of a TEXT value is [c_str] of its
    bytes. *)
Definition sqlite3_value_text {R : Type} (v : sqlite3_value) : flow R string :=
  match v with
  | SqlText s => Next (c_str s)
  | _ => Undefined
  end.

Definition sqlite3_value_int {R : Type} (v : sqlite3_value) : flow R Z :=
  match v with
  | SqlInteger i => Next (int_of_int64 i)
  | SqlNull => Next 0
  | _ => Undefined
  end.

(** What the call leaves in the [sqlite3_context]. *)
Inductive sqlite3_result : Type :=
| result_error (msg : string)
| result_int (v : Z).

(** [argv[i]]. *)
Definition arg {R : Type} (argv : list sqlite3_value) (i : nat)
    : flow R sqlite3_value :=
  match nth_error argv i with
  | Some v => Next v
  | None => Undefined
  end.

(** [options[i]] and [options[i] = b] on a [std::vector<bool>]. *)
Definition vector_get {R : Type} (options : list bool) (i : nat) : flow R bool :=
  match nth_error options i with
  | Some b => Next b
  | None => Undefined
  end.

Fixpoint vector_set {R : Type} (options : list bool) (i : nat) (b : bool)
    : flow R (list bool) :=
  match options, i with
  | [], _ => Undefined
  | _ :: tl, O => Next (b :: tl)
  | hd :: tl, S i' => tl' <- vector_set tl i' b ;; Next (hd :: tl')
  end.

(** The value of a call to a function of this file. *)
Definition call {R A : Type} (result : option A) : flow R A :=
  match result with
  | Some a => Next a
  | None => Undefined
  end.

(** [op[0]] of a C string: the terminator when the string is empty. *)
Definition first_char (op : string) : ascii :=
  match op with
  | EmptyString => zero
  | String c _ => c
  end.

Definition ops : list string := ["<"; "<="; "="; ">="; ">"].

Definition arguments_error : string :=
  "Must provide two version strings and an operator to compare.".

Definition operator_error : string :=
  "Unknown compare operator. Must provide one of the following: (<, <=, =, >=, >)".

Definition options_error : string :=
  "Options for epoch, delim_precedence, comp_remaining, and remainder_precedence must be true, false, or null.".

(** [for (auto i = ...; i < argc && i < 7; i++)] with [n] iterations left. *)
Fixpoint options_loop (argv : list sqlite3_value) (n i : nat)
    (options : list bool) : flow sqlite3_result (list bool) :=
  match n with
  | O => Next options
  | S n' =>
      v <- arg argv i ;;
      if negb (sqlite3_type_eqb (sqlite3_value_type v) SQLITE_INTEGER)
         && negb (sqlite3_type_eqb (sqlite3_value_type v) SQLITE_NULL)
      then Return (result_error options_error)
      else
        x <- sqlite3_value_int v ;;
        options' <- vector_set options (i - 3) (negb (x =? 0)) ;;
        options_loop argv n' (S i) options'
  end.

(** The validation part of [versionCompareFunc]: everything before the call
    of the comparator.  It yields the operator, the two versions and the
    options. *)
Definition versionCompareFunc_validate (argv : list sqlite3_value)
    : flow sqlite3_result (string * string * string * list bool) :=
  let argc := List.length argv in
  if Nat.ltb argc 3 then Return (result_error arguments_error)
  else
    a0 <- arg argv 0 ;;
    a1 <- arg argv 1 ;;
    a2 <- arg argv 2 ;;
    if negb (sqlite3_type_eqb (sqlite3_value_type a0) SQLITE_TEXT)
       || negb (sqlite3_type_eqb (sqlite3_value_type a1) SQLITE_TEXT)
       || negb (sqlite3_type_eqb (sqlite3_value_type a2) SQLITE_TEXT)
    then Return (result_error arguments_error)
    else
      op <- sqlite3_value_text a1 ;;
      if negb (existsb (String.eqb op) ops)
      then Return (result_error operator_error)
      else
        options <- options_loop argv (Nat.min argc 7 - 3) 3
                     [false; false; false; false] ;;
        l <- sqlite3_value_text a0 ;;
        r <- sqlite3_value_text a2 ;;
        Next (op, l, r, options).

(** The boolean the operator and the sign of [rc] select. *)
Definition operator_holds (rc : Z) (op : string) : bool :=
  if rc <? 0 then Ascii.eqb (first_char op) "<"
  else if rc >? 0 then Ascii.eqb (first_char op) ">"
  else Ascii.eqb (first_char op) "=" || Nat.eqb (String.length op) 2.

Definition versionCompareFunc (char_is_signed : bool)
    (argv : list sqlite3_value) : option sqlite3_result :=
  returned
    (checked <- versionCompareFunc_validate argv ;;
     let '(op, l, r, options) := checked in
     o0 <- vector_get options 0 ;;
     o1 <- vector_get options 1 ;;
     o2 <- vector_get options 2 ;;
     o3 <- vector_get options 3 ;;
     rc <- call (versionCompare char_is_signed l r o0 o1 o2 o3) ;;
     let result := operator_holds rc op in
     Return (A := unit) (result_int (if result then 1 else 0))).

(** ** Registration

    The connection is reduced to what registration changes: the functions
    and the collations it knows by name, the most recent first. *)

Record sqlite3 : Type := mk_sqlite3 {
  functions : list (string * Z * (list sqlite3_value -> option sqlite3_result));
  collations : list (string * (string -> string -> option Z))
}.

Definition sqlite3_create_function (db : sqlite3) (name : string) (nArg : Z)
    (xFunc : list sqlite3_value -> option sqlite3_result) : sqlite3 :=
  mk_sqlite3 ((name, nArg, xFunc) :: functions db) (collations db).

Definition sqlite3_create_collation (db : sqlite3) (name : string)
    (xCompare : string -> string -> option Z) : sqlite3 :=
  mk_sqlite3 (functions db) ((name, xCompare) :: collations db).

Fixpoint find_collation (registered : list (string * (string -> string -> option Z)))
    (name : string) : option (string -> string -> option Z) :=
  match registered with
  | [] => None
  | (n, f) :: tl => if String.eqb n name then Some f else find_collation tl name
  end.

Definition registerVersionExtensions (char_is_signed : bool) (db : sqlite3)
    : sqlite3 :=
  let db := sqlite3_create_function db "version_compare" (-1)
              (versionCompareFunc char_is_signed) in
  let db := sqlite3_create_collation db "version"
              (versionCollate char_is_signed) in
  let db := sqlite3_create_collation db "version_arch"
              (versionCollateARCH char_is_signed) in
  let db := sqlite3_create_collation db "version_dpkg"
              (versionCollateDPKG char_is_signed) in
  sqlite3_create_collation db "version_rhel"
    (versionCollateRHEL char_is_signed).

(** ** The loop of [versionCompare] by recursion on the strings

    The [for] loop of the code once more, from the source: the body of
    [scan_body] with its conversion [int_of_char], the index replaced by
    recursion on the two strings in lock-step.  Lemma [scan_loop_walk] proves
    that the indexed loop computes it; the proofs work on this form.
    [Decided rc]: the loop returned [rc] at some position;
    [Exhausted pending]: the loop ended, at the end of the shorter string or
    of both, with [first_diff = pending]. *)

Inductive walk_result : Type :=
| Decided (rc : Z)
| Exhausted (pending : Z).

Fixpoint segment_walk (char_is_signed delim_precedence : bool) (pending : Z)
    (left right : string) : walk_result :=
  match left, right with
  | String left_byte left', String right_byte right' =>
      let left_rank := delimiterPrecedence left_byte in
      let right_rank := delimiterPrecedence right_byte in
      match left_rank =? 0, right_rank =? 0 with
      | true, true =>
          segment_walk char_is_signed delim_precedence
            (if pending =? 0
             then int_of_char char_is_signed left_byte
                  - int_of_char char_is_signed right_byte
             else pending)
            left' right'
      | true, false => Decided 1
      | false, true => Decided (-1)
      | false, false =>
          if negb (pending =? 0) then Decided pending
          else if delim_precedence && negb (left_rank =? right_rank)
          then Decided (left_rank - right_rank)
          else segment_walk char_is_signed delim_precedence pending left' right'
      end
  | _, _ => Exhausted pending
  end.

(** A run of ordinary characters. *)

Fixpoint all_ordinary (s : string) : bool :=
  match s with
  | EmptyString => true
  | String c s' => (delimiterPrecedence c =? 0) && all_ordinary s'
  end.

(** The run of ordinary/ordinary pairs that follows a position cannot go on
    at the two rests: one of the strings ends there, or one of them holds a
    delimiter there. *)
Definition run_end (left_rest right_rest : string) : bool :=
  match left_rest, right_rest with
  | String x _, String y _ =>
      negb ((delimiterPrecedence x =? 0) && (delimiterPrecedence y =? 0))
  | _, _ => true
  end.

(** ** The segment comparator as the specification words it

    Section 4.3 of the specification: a walk over both strings in lock-step
    that carries the pending difference.  The bytes are the unsigned byte
    values of the specification (section 3: a version string is a sequence of
    opaque bytes); nothing of the platform enters. *)

Fixpoint byte_walk (delim_precedence : bool) (pending : Z)
    (left right : string) : walk_result :=
  match left, right with
  | String left_byte left', String right_byte right' =>
      let left_rank := delimiterPrecedence left_byte in
      let right_rank := delimiterPrecedence right_byte in
      match left_rank =? 0, right_rank =? 0 with
      | true, true =>
          (* ordinary vs ordinary: record the first difference, go on *)
          byte_walk delim_precedence
            (if pending =? 0
             then byte_value left_byte - byte_value right_byte
             else pending)
            left' right'
      | true, false => Decided 1       (* ordinary vs delimiter *)
      | false, true => Decided (-1)    (* delimiter vs ordinary *)
      | false, false =>
          (* delimiter vs delimiter *)
          if negb (pending =? 0) then Decided pending
          else if delim_precedence && negb (left_rank =? right_rank)
          then Decided (left_rank - right_rank)
          else byte_walk delim_precedence pending left' right'
      end
  | _, _ => Exhausted pending
  end.

(** ** The arguments of the predicate as the specification words them

    An option argument is acceptable when it is an integer or null; an
    absent or null option is false, an integer one is true when the C [int]
    read from it is not zero.  The operator is the operator argument as the
    predicate reads it, a C string. *)

Definition bad_option (v : sqlite3_value) : bool :=
  match v with
  | SqlInteger _ => false
  | SqlNull => false
  | _ => true
  end.

Definition resolved_option (argv : list sqlite3_value) (i : nat) : bool :=
  match nth_error argv i with
  | Some (SqlInteger z) => negb (int_of_int64 z =? 0)
  | _ => false
  end.

Definition invocation_rejected (argv : list sqlite3_value) : Prop :=
  (List.length argv < 3)%nat
  \/ (exists i v, (i < 3)%nat /\ nth_error argv i = Some v
                  /\ sqlite3_value_type v <> SQLITE_TEXT)
  \/ (exists op, nth_error argv 1 = Some (SqlText op) /\ ~ In (c_str op) ops)
  \/ (exists i v, (3 <= i < 7)%nat /\ nth_error argv i = Some v
                  /\ sqlite3_value_type v <> SQLITE_INTEGER
                  /\ sqlite3_value_type v <> SQLITE_NULL).

(** ** The comparison with the remainder rules switched off

    What [versionCompare_segments] returns when [comp_remaining] is unset,
    by recursion on the two strings: the scan of the common prefix, then the
    pending difference if both strings end together and the difference of
    the lengths otherwise (the difference of the lengths of the two rests,
    the common prefix having the same length on both sides).  Lemma
    [versionCompare_segments_plain] relates it to the code. *)

Fixpoint segments_plain (char_is_signed delim_precedence : bool) (pending : Z)
    (left right : string) : Z :=
  match left, right with
  | EmptyString, EmptyString => pending
  | EmptyString, String _ _ => - Z.of_nat (String.length right)
  | String _ _, EmptyString => Z.of_nat (String.length left)
  | String left_byte left', String right_byte right' =>
      let left_rank := delimiterPrecedence left_byte in
      let right_rank := delimiterPrecedence right_byte in
      match left_rank =? 0, right_rank =? 0 with
      | true, true =>
          segments_plain char_is_signed delim_precedence
            (if pending =? 0
             then int_of_char char_is_signed left_byte
                  - int_of_char char_is_signed right_byte
             else pending)
            left' right'
      | true, false => 1
      | false, true => -1
      | false, false =>
          if negb (pending =? 0) then pending
          else if delim_precedence && negb (left_rank =? right_rank)
          then left_rank - right_rank
          else segments_plain char_is_signed delim_precedence pending left' right'
      end
  end.

(** Two strings of the same shape: the same length, a delimiter in one
    exactly where the other has a delimiter, and the same character at every
    other position. *)
Fixpoint same_shape (left right : string) : bool :=
  match left, right with
  | EmptyString, EmptyString => true
  | String a left', String b right' =>
      (if delimiterPrecedence a =? 0
       then Ascii.eqb a b
       else negb (delimiterPrecedence b =? 0))
      && same_shape left' right'
  | _, _ => false
  end.

(** The three differences that are pending while three strings are scanned
    pairwise in lock-step (first against second, second against third, first
    against third) are related as first differences of three runs of equal
    length are. *)
Definition pending_consistent (u v w : Z) : Prop :=
  (u = 0 -> w = v) /\ (v = 0 -> w = u)
  /\ (u < 0 -> v < 0 -> w < 0) /\ (0 < u -> 0 < v -> 0 < w).

(** What the epoch step orders by: the position of the first colon, a string
    without a colon coming before all others. *)
Definition epoch_key (s : string) : Z :=
  match find s ":"%char with
  | Some i => Z.of_nat i
  | None => -1
  end.

(** A string of 7-bit bytes. *)
Fixpoint all_ascii (s : string) : bool :=
  match s with
  | EmptyString => true
  | String c s' => (byte_value c <? 128) && all_ascii s'
  end.

(** * Properties *)

(** ** Strings and characters *)

Lemma get_in_range (s : string) (i : nat) :
  (i < String.length s)%nat -> exists c, String.get i s = Some c.
Proof.
  revert i; induction s as [|a s IH]; intros i Hi; simpl in Hi.
  - lia.
  - destruct i as [|i]; simpl.
    + now exists a.
    + apply IH; lia.
Qed.

Lemma byte_value_range (c : ascii) : 0 <= byte_value c < 256.
Proof.
  unfold byte_value.
  pose proof (N_ascii_bounded c) as H.
  lia.
Qed.

Lemma byte_value_inj (a b : ascii) : byte_value a = byte_value b -> a = b.
Proof.
  unfold byte_value; intro H.
  rewrite <- (ascii_N_embedding a), <- (ascii_N_embedding b).
  f_equal; lia.
Qed.

Lemma int_of_char_range (cs : bool) (c : ascii) :
  -128 <= int_of_char cs c < 256.
Proof.
  unfold int_of_char.
  pose proof (byte_value_range c).
  destruct cs; simpl; [destruct (128 <=? byte_value c) eqn:E|]; lia.
Qed.

Lemma int_of_char_inj (cs : bool) (a b : ascii) :
  int_of_char cs a = int_of_char cs b -> a = b.
Proof.
  unfold int_of_char; intro H.
  pose proof (byte_value_range a); pose proof (byte_value_range b).
  apply byte_value_inj.
  destruct cs; simpl in H; [|exact H].
  destruct (128 <=? byte_value a) eqn:Ea; destruct (128 <=? byte_value b) eqn:Eb; lia.
Qed.

Lemma delimiterPrecedence_range (c : ascii) : 0 <= delimiterPrecedence c <= 5.
Proof.
  unfold delimiterPrecedence.
  repeat match goal with |- context [Ascii.eqb ?x ?y] => destruct (Ascii.eqb x y) end; lia.
Qed.

(** ** The body of [versionCompare] on its main path *)

Lemma versionCompare_body_main (cs : bool) (l r : string) (e dp cr rp : bool) :
  l <> EmptyString -> r <> EmptyString -> l <> r ->
  versionCompare_body cs l r e dp cr rp =
  (_ <- (if e then
           if negb (compareEpoch l r =? 0) then Return (compareEpoch l r)
           else Next tt
         else Next tt) ;;
   versionCompare_segments cs l r dp cr rp).
Proof.
  intros Hl Hr Hlr.
  unfold versionCompare_body.
  destruct l as [|a l]; [congruence|].
  destruct r as [|b r]; [congruence|].
  cbn [String.length Nat.eqb andb].
  apply String.eqb_neq in Hlr; rewrite Hlr.
  reflexivity.
Qed.

Lemma versionCompare_past_epoch (cs : bool) (l r : string) (e dp cr rp : bool) :
  l <> EmptyString -> r <> EmptyString -> l <> r ->
  (e = true -> compareEpoch l r = 0) ->
  versionCompare cs l r e dp cr rp =
  returned (versionCompare_segments cs l r dp cr rp).
Proof.
  intros Hl Hr Hlr He.
  unfold versionCompare.
  rewrite versionCompare_body_main by assumption.
  destruct e; [|reflexivity].
  rewrite He by reflexivity.
  reflexivity.
Qed.

Lemma epoch_difference_decides (cs : bool) (l r : string) (dp cr rp : bool) :
  l <> EmptyString -> r <> EmptyString -> l <> r ->
  compareEpoch l r <> 0 ->
  versionCompare cs l r true dp cr rp = Some (compareEpoch l r).
Proof.
  intros Hl Hr Hlr He.
  unfold versionCompare.
  rewrite versionCompare_body_main by assumption.
  apply Z.eqb_neq in He; rewrite He.
  reflexivity.
Qed.

Lemma versionCompare_refl (cs : bool) (v : string) (e dp cr rp : bool) :
  versionCompare cs v v e dp cr rp = Some 0.
Proof.
  unfold versionCompare, versionCompare_body.
  destruct v as [|a v]; [reflexivity|].
  cbn [String.length Nat.eqb andb].
  rewrite String.eqb_refl.
  reflexivity.
Qed.

(** ** Base cases *)

(** C9. Whatever the four policy bits are: two identical strings compare as
    0; two empty strings compare as 0; an empty left string against a
    non-empty right string gives a negative result; a non-empty left string
    against an empty right string gives a positive result. *)
Theorem versionCompare_base_cases (cs e dp cr rp : bool) :
  (forall v, versionCompare cs v v e dp cr rp = Some 0)
  /\ versionCompare cs EmptyString EmptyString e dp cr rp = Some 0
  /\ (forall c r, exists rc,
        versionCompare cs EmptyString (String c r) e dp cr rp = Some rc /\ rc < 0)
  /\ (forall c l, exists rc,
        versionCompare cs (String c l) EmptyString e dp cr rp = Some rc /\ 0 < rc).
Proof.
  repeat split.
  - intro v; apply versionCompare_refl.
  - exists (-1); split; [reflexivity|lia].
  - exists 1; split; [reflexivity|lia].
Qed.

(** ** The epoch step *)

Lemma find_position (s : string) (c : ascii) (i : nat) :
  find s c = Some i ->
  String.get i s = Some c
  /\ forall j, (j < i)%nat -> String.get j s <> Some c.
Proof.
  revert i; induction s as [|a s IH]; intros i H; simpl in H; [discriminate|].
  destruct (Ascii.eqb_spec a c) as [->|Hac].
  - injection H as <-; split; [reflexivity|intros j Hj; lia].
  - destruct (find s c) as [k|] eqn:Hk; [|discriminate].
    injection H as <-.
    destruct (IH k eq_refl) as [Hget Hbefore].
    split; [exact Hget|].
    intros [|j] Hj; simpl.
    + congruence.
    + apply Hbefore; lia.
Qed.

Lemma find_absent (s : string) (c : ascii) :
  find s c = None -> forall j, String.get j s <> Some c.
Proof.
  induction s as [|a s IH]; intros H j; simpl in H.
  - destruct j; discriminate.
  - destruct (Ascii.eqb_spec a c) as [->|Hac]; [discriminate|].
    destruct (find s c) eqn:Hk; [discriminate|].
    destruct j as [|j]; simpl; [congruence|now apply IH].
Qed.

(** C3. For non-empty, non-identical strings compared with the epoch bit set:
    when only the left string holds a colon the result is positive, when only
    the right one does it is negative; when both do and the positions of
    their first colons differ, the result is the left position minus the
    right position (the epoch values are not looked at); when neither does,
    or the two positions are equal, the result is that of the segment scan,
    which is also the result with the epoch bit unset. *)
Theorem versionCompare_epoch (cs : bool) (l r : string) (dp cr rp : bool) :
  l <> EmptyString -> r <> EmptyString -> l <> r ->
  match find l ":"%char, find r ":"%char with
  | Some _, None =>
      exists rc, versionCompare cs l r true dp cr rp = Some rc /\ 0 < rc
  | None, Some _ =>
      exists rc, versionCompare cs l r true dp cr rp = Some rc /\ rc < 0
  | Some i, Some j =>
      if Nat.eqb i j
      then versionCompare cs l r true dp cr rp =
             returned (versionCompare_segments cs l r dp cr rp)
           /\ versionCompare cs l r true dp cr rp =
                versionCompare cs l r false dp cr rp
      else versionCompare cs l r true dp cr rp = Some (Z.of_nat i - Z.of_nat j)
  | None, None =>
      versionCompare cs l r true dp cr rp =
        returned (versionCompare_segments cs l r dp cr rp)
      /\ versionCompare cs l r true dp cr rp =
           versionCompare cs l r false dp cr rp
  end.
Proof.
  intros Hl Hr Hlr.
  pose proof (epoch_difference_decides cs l r dp cr rp Hl Hr Hlr) as Hdec.
  pose proof (fun H => versionCompare_past_epoch cs l r true dp cr rp Hl Hr Hlr (fun _ => H)) as Hpass.
  pose proof (versionCompare_past_epoch cs l r false dp cr rp Hl Hr Hlr) as Hoff.
  unfold compareEpoch in Hdec, Hpass.
  destruct (find l ":"%char) as [i|], (find r ":"%char) as [j|].
  - destruct (Nat.eqb_spec i j) as [->|Hij].
    + rewrite Hoff by discriminate. split; apply Hpass; lia.
    + apply Hdec; lia.
  - exists 1; split; [apply Hdec|]; lia.
  - exists (-1); split; [apply Hdec|]; lia.
  - rewrite Hoff by discriminate. split; apply Hpass; lia.
Qed.

(** ** The remainder resolver *)

Lemma at_index_minus_one_length {R : Type} (s : string) :
  s <> EmptyString ->
  exists d, String.get (Nat.pred (String.length s)) s = Some d
            /\ at_index_minus_one (R := R) s (String.length s) = Next d.
Proof.
  intro Hs.
  destruct s as [|a s]; [congruence|].
  destruct (get_in_range (String a s) (String.length s)) as [d Hd]; [simpl; lia|].
  exists d; split.
  - exact Hd.
  - simpl at_index_minus_one. unfold at_index. now rewrite Hd.
Qed.

(** What the resolver returns when called as [versionCompare] calls it: on
    two non-empty strings of different lengths, at the length of the shorter
    one.  [c] is the byte of the longer string at that position, [d] the
    last byte of the shorter string. *)
Lemma compareRemainder_value (l r : string) (diff : Z) (cr rp : bool) :
  l <> EmptyString -> r <> EmptyString -> String.length l <> String.length r ->
  let left_shorter := Nat.ltb (String.length l) (String.length r) in
  let shorter := if left_shorter then l else r in
  let longer := if left_shorter then r else l in
  let length_difference := Z.of_nat (String.length l) - Z.of_nat (String.length r) in
  Nat.min (String.length l) (String.length r) = String.length shorter
  /\ exists c d,
    String.get (String.length shorter) longer = Some c
    /\ String.get (Nat.pred (String.length shorter)) shorter = Some d
    /\ compareRemainder l r (Nat.min (String.length l) (String.length r)) diff cr rp =
       Return
         (if negb cr then length_difference
          else if Ascii.eqb c "~" then (if left_shorter then 1 else -1)
          else if Ascii.eqb c "-" then 0
          else if Ascii.eqb c "^" then (if left_shorter then -1 else 1)
          else if negb (diff =? 0) && (negb rp || negb (isdigit d)) then diff
          else length_difference).
Proof.
  intros Hl Hr Hlen; cbv zeta.
  destruct (Nat.ltb_spec (String.length l) (String.length r)) as [Hlt|Hge].
  - rewrite Nat.min_l by lia. split; [reflexivity|].
    destruct (get_in_range r (String.length l) Hlt) as [c Hc].
    destruct (at_index_minus_one_length (R := Z) l Hl) as [d [Hd Hd']].
    exists c, d; repeat split; try assumption.
    unfold compareRemainder.
    rewrite Nat.eqb_refl, Hd'.
    unfold at_index at 1; rewrite Hc.
    assert (Hne : Nat.eqb (String.length r) (String.length l) = false)
      by (apply Nat.eqb_neq; lia).
    rewrite Hne.
    destruct cr; [|reflexivity].
    cbn [bind negb].
    destruct (Ascii.eqb c "~"); [reflexivity|].
    destruct (Ascii.eqb c "-"); [reflexivity|].
    destruct (Ascii.eqb c "^"); [reflexivity|].
    destruct (diff =? 0), rp, (isdigit d); reflexivity.
  - rewrite Nat.min_r by lia. split; [reflexivity|].
    assert (Hlt : (String.length r < String.length l)%nat) by lia.
    destruct (get_in_range l (String.length r) Hlt) as [c Hc].
    destruct (at_index_minus_one_length (R := Z) r Hr) as [d [Hd Hd']].
    exists c, d; repeat split; try assumption.
    unfold compareRemainder.
    assert (Hne : Nat.eqb (String.length l) (String.length r) = false)
      by (apply Nat.eqb_neq; lia).
    rewrite Hne, Nat.eqb_refl, Hd'.
    unfold at_index; rewrite Hc.
    destruct cr; [|reflexivity].
    cbn [bind negb].
    destruct (Ascii.eqb c "~"); [reflexivity|].
    destruct (Ascii.eqb c "-"); [reflexivity|].
    destruct (Ascii.eqb c "^"); [reflexivity|].
    destruct (diff =? 0), rp, (isdigit d); reflexivity.
Qed.

(** ** The scan of the common prefix *)

Lemma scan_loop_tail (cs : bool) (a b : ascii) (l r : string) (dp : bool)
    (n i : nat) (fd : Z) :
  scan_loop cs (String a l) (String b r) dp n (S i) fd =
  scan_loop cs l r dp n i fd.
Proof.
  revert i fd; induction n as [|n IH]; intros i fd; [reflexivity|].
  cbn [scan_loop].
  change (scan_body cs (String a l) (String b r) dp (S i) fd)
    with (scan_body cs l r dp i fd).
  destruct (scan_body cs l r dp i fd); cbn [bind]; auto.
Qed.

Lemma sub_eqb_zero (x y : Z) : (x - y =? 0) = (x =? y).
Proof.
  destruct (Z.eqb_spec x y), (Z.eqb_spec (x - y) 0); auto; lia.
Qed.

(** The indexed loop of the code computes the walk of the specification. *)
Lemma scan_loop_walk (cs dp : bool) (l r : string) (fd : Z) :
  scan_loop cs l r dp (Nat.min (String.length l) (String.length r)) O fd =
  match segment_walk cs dp fd l r with
  | Decided rc => Return rc
  | Exhausted pending => Next pending
  end.
Proof.
  revert r fd; induction l as [|a l IH]; intros r fd; [reflexivity|].
  destruct r as [|b r]; [reflexivity|].
  cbn [String.length Nat.min scan_loop segment_walk].
  unfold scan_body, at_index; cbn [String.get bind].
  destruct (delimiterPrecedence a =? 0), (delimiterPrecedence b =? 0);
    cbn [andb bind]; try reflexivity.
  - rewrite scan_loop_tail; apply IH.
  - destruct (fd =? 0); cbn [negb]; [|reflexivity].
    destruct dp; cbn [andb].
    + rewrite sub_eqb_zero.
      destruct (delimiterPrecedence a =? delimiterPrecedence b); cbn [negb bind];
        [rewrite scan_loop_tail; apply IH | reflexivity].
    + cbn [bind]; rewrite scan_loop_tail; apply IH.
Qed.

Lemma versionCompare_segments_walk (cs : bool) (l r : string) (dp cr rp : bool) :
  versionCompare_segments cs l r dp cr rp =
  match segment_walk cs dp 0 l r with
  | Decided rc => Return rc
  | Exhausted pending =>
      if Nat.eqb (String.length l) (String.length r) then Return pending
      else compareRemainder l r
             (Nat.min (String.length l) (String.length r)) pending cr rp
  end.
Proof.
  unfold versionCompare_segments; cbv zeta.
  rewrite scan_loop_walk.
  destruct (segment_walk cs dp 0 l r); reflexivity.
Qed.

Lemma versionCompare_segments_returns (cs : bool) (l r : string) (dp cr rp : bool) :
  l <> EmptyString -> r <> EmptyString ->
  exists rc, versionCompare_segments cs l r dp cr rp = Return rc.
Proof.
  intros Hl Hr.
  rewrite versionCompare_segments_walk.
  destruct (segment_walk cs dp 0 l r) as [rc|p]; [now exists rc|].
  destruct (Nat.eqb_spec (String.length l) (String.length r)) as [|Hlen];
    [now exists p|].
  destruct (compareRemainder_value l r p cr rp Hl Hr Hlen) as [_ [c [d [_ [_ H]]]]].
  rewrite H; eauto.
Qed.

(** The comparator has no failure mode: it returns on every input. *)
Lemma versionCompare_total (cs : bool) (l r : string) (e dp cr rp : bool) :
  exists rc, versionCompare cs l r e dp cr rp = Some rc.
Proof.
  destruct l as [|a l].
  { destruct r; [exists 0|exists (-1)]; reflexivity. }
  destruct r as [|b r]; [exists 1; reflexivity|].
  destruct (string_dec (String a l) (String b r)) as [Heq|Hne].
  { rewrite Heq; exists 0; apply versionCompare_refl. }
  unfold versionCompare.
  rewrite versionCompare_body_main by (assumption || discriminate).
  destruct (versionCompare_segments_returns cs (String a l) (String b r) dp cr rp)
    as [rc Hrc]; try discriminate.
  destruct e; cbn [bind].
  - destruct (negb (compareEpoch (String a l) (String b r) =? 0)); cbn [bind].
    + eexists; reflexivity.
    + rewrite Hrc; now exists rc.
  - rewrite Hrc; now exists rc.
Qed.

Lemma versionCompare_scan_walk_value (cs : bool) (l r : string) (e dp cr rp : bool) :
  l <> EmptyString -> r <> EmptyString -> l <> r ->
  (e = true -> compareEpoch l r = 0) ->
  versionCompare cs l r e dp cr rp =
  match segment_walk cs dp 0 l r with
  | Decided rc => Some rc
  | Exhausted pending =>
      if Nat.eqb (String.length l) (String.length r) then Some pending
      else returned (compareRemainder l r
                       (Nat.min (String.length l) (String.length r))
                       pending cr rp)
  end.
Proof.
  intros Hl Hr Hlr He.
  rewrite (versionCompare_past_epoch cs l r e dp cr rp Hl Hr Hlr He).
  rewrite versionCompare_segments_walk.
  destruct (segment_walk cs dp 0 l r); [reflexivity|].
  destruct (Nat.eqb (String.length l) (String.length r)); reflexivity.
Qed.

(** C2. For non-empty strings of unequal length, when the epoch step does not
    decide and the scan of the common prefix ends without a return, leaving
    [fd] pending: with the remainder-comparison bit unset the result is the
    length of the left string minus that of the right; with it set, the
    first byte [c] of the longer string past the common prefix decides:
    a tilde gives 1 if the left string is the shorter and -1 otherwise, a
    hyphen gives 0, a caret gives -1 if the left string is the shorter and 1
    otherwise, and any other byte gives [fd] when [fd] is non-zero and the
    remainder-precedence bit is unset or the last byte [d] of the shorter
    string is not a decimal digit; in all remaining cases the result is the
    length difference. *)
Theorem versionCompare_remainder (cs : bool) (l r : string) (e dp cr rp : bool)
    (fd : Z) :
  l <> EmptyString -> r <> EmptyString -> String.length l <> String.length r ->
  (e = true -> compareEpoch l r = 0) ->
  scan_loop cs l r dp (Nat.min (String.length l) (String.length r)) O 0 = Next fd ->
  let left_shorter := Nat.ltb (String.length l) (String.length r) in
  let shorter := if left_shorter then l else r in
  let longer := if left_shorter then r else l in
  let length_difference := Z.of_nat (String.length l) - Z.of_nat (String.length r) in
  exists c d,
    String.get (String.length shorter) longer = Some c
    /\ String.get (Nat.pred (String.length shorter)) shorter = Some d
    /\ versionCompare cs l r e dp cr rp =
       Some
         (if negb cr then length_difference
          else if Ascii.eqb c "~" then (if left_shorter then 1 else -1)
          else if Ascii.eqb c "-" then 0
          else if Ascii.eqb c "^" then (if left_shorter then -1 else 1)
          else if negb (fd =? 0) && (negb rp || negb (isdigit d)) then fd
          else length_difference).
Proof.
  intros Hl Hr Hlen He Hscan; cbv zeta.
  assert (Hlr : l <> r) by (intros ->; now apply Hlen).
  destruct (compareRemainder_value l r fd cr rp Hl Hr Hlen)
    as [_ [c [d [Hc [Hd Hrem]]]]].
  exists c, d; repeat split; try assumption.
  rewrite (versionCompare_past_epoch cs l r e dp cr rp Hl Hr Hlr He).
  unfold versionCompare_segments; cbv zeta.
  rewrite Hscan; cbn [bind].
  apply Nat.eqb_neq in Hlen; rewrite Hlen.
  rewrite Hrem; reflexivity.
Qed.

(** C10. Under the resolver's preconditions (two non-empty strings of unequal
    length, position equal to the shorter length) the position is at least 1,
    the read just past the common prefix falls inside the longer string, the
    read at position minus one falls inside the shorter string, and the
    resolver returns a value: no out-of-range read is reached.  The
    comparator, which establishes these preconditions before the call,
    returns a value on every input. *)
Theorem compareRemainder_in_bounds (cs : bool) (l r : string) (diff : Z)
    (cr rp : bool) :
  l <> EmptyString -> r <> EmptyString -> String.length l <> String.length r ->
  let pos := Nat.min (String.length l) (String.length r) in
  let left_shorter := Nat.ltb (String.length l) (String.length r) in
  let shorter := if left_shorter then l else r in
  let longer := if left_shorter then r else l in
  (1 <= pos)%nat
  /\ (pos < String.length longer)%nat
  /\ (pos - 1 < String.length shorter)%nat
  /\ (exists c, at_index (R := Z) longer pos = Next c)
  /\ (exists d, at_index_minus_one (R := Z) shorter pos = Next d)
  /\ (exists rc, compareRemainder l r pos diff cr rp = Return rc)
  /\ (forall e dp, exists rc, versionCompare cs l r e dp cr rp = Some rc).
Proof.
  intros Hl Hr Hlen; cbv zeta.
  destruct (compareRemainder_value l r diff cr rp Hl Hr Hlen)
    as [Hmin [c [d [Hc [Hd Hrem]]]]].
  rewrite Hmin in *.
  assert (Hpos : (1 <= String.length l)%nat /\ (1 <= String.length r)%nat).
  { destruct l, r; try congruence; simpl; lia. }
  destruct (Nat.ltb_spec (String.length l) (String.length r)) as [Hlt|Hge].
  - repeat split; try lia.
    + exists c; unfold at_index; now rewrite Hc.
    + destruct (at_index_minus_one_length (R := Z) l Hl) as [d' [_ H]]; eauto.
    + eauto.
    + intros; apply versionCompare_total.
  - repeat split; try lia.
    + exists c; unfold at_index; now rewrite Hc.
    + destruct (at_index_minus_one_length (R := Z) r Hr) as [d' [_ H]]; eauto.
    + eauto.
    + intros; apply versionCompare_total.
Qed.

(** ** Exchanging the two arguments *)

Lemma compareEpoch_swap (l r : string) : compareEpoch r l = - compareEpoch l r.
Proof.
  unfold compareEpoch.
  destruct (find l ":"%char), (find r ":"%char); lia.
Qed.

Lemma opp_eqb_zero (x : Z) : (- x =? 0) = (x =? 0).
Proof.
  destruct (Z.eqb_spec x 0), (Z.eqb_spec (- x) 0); auto; lia.
Qed.

Lemma segment_walk_swap (cs dp : bool) (l r : string) (fd : Z) :
  segment_walk cs dp (- fd) r l =
  match segment_walk cs dp fd l r with
  | Decided rc => Decided (- rc)
  | Exhausted pending => Exhausted (- pending)
  end.
Proof.
  revert r fd; induction l as [|a l IH]; intros r fd.
  - destruct r; reflexivity.
  - destruct r as [|b r]; [reflexivity|].
    cbn [segment_walk].
    rewrite opp_eqb_zero.
    destruct (delimiterPrecedence a =? 0), (delimiterPrecedence b =? 0);
      try reflexivity.
    + rewrite <- IH. f_equal.
      destruct (fd =? 0); lia.
    + destruct (Z.eqb_spec fd 0) as [->|Hfd]; cbn [negb]; [|reflexivity].
      rewrite (Z.eqb_sym (delimiterPrecedence b)).
      destruct (dp && negb (delimiterPrecedence a =? delimiterPrecedence b)).
      * f_equal; lia.
      * apply (IH r 0).
Qed.

Lemma compareRemainder_swap (l r : string) (diff : Z) (cr rp : bool) :
  l <> EmptyString -> r <> EmptyString -> String.length l <> String.length r ->
  exists rc,
    compareRemainder l r (Nat.min (String.length l) (String.length r)) diff cr rp
      = Return rc
    /\ compareRemainder r l (Nat.min (String.length r) (String.length l)) (- diff) cr rp
      = Return (- rc).
Proof.
  intros Hl Hr Hlen.
  destruct (compareRemainder_value l r diff cr rp Hl Hr Hlen)
    as [_ [c [d [Hc [Hd Hlr]]]]].
  destruct (compareRemainder_value r l (- diff) cr rp Hr Hl (not_eq_sym Hlen))
    as [_ [c' [d' [Hc' [Hd' Hrl]]]]].
  eexists; split; [exact Hlr|].
  rewrite Hrl; clear Hlr Hrl.
  rewrite opp_eqb_zero.
  destruct (Nat.ltb_spec (String.length l) (String.length r)) as [Hlt|Hge];
    destruct (Nat.ltb_spec (String.length r) (String.length l)) as [Hlt'|Hge'];
    try lia;
    assert (c' = c) by congruence; assert (d' = d) by congruence; subst c' d';
    f_equal;
    destruct cr; cbn [negb];
    repeat match goal with
           | |- context [if ?b then _ else _] => destruct b; cbn [negb andb orb]
           end; lia.
Qed.

(** Exchanging the arguments negates the result. *)
Lemma versionCompare_swap (cs : bool) (l r : string) (e dp cr rp : bool) :
  exists rc,
    versionCompare cs l r e dp cr rp = Some rc
    /\ versionCompare cs r l e dp cr rp = Some (- rc).
Proof.
  destruct l as [|a l].
  { destruct r; [exists 0|exists (-1)]; split; reflexivity. }
  destruct r as [|b r]; [exists 1; split; reflexivity|].
  set (L := String a l); set (R := String b r).
  assert (HL : L <> EmptyString) by discriminate.
  assert (HR : R <> EmptyString) by discriminate.
  destruct (string_dec L R) as [Heq|Hne].
  { rewrite Heq; exists 0; split; apply versionCompare_refl. }
  assert (Hne' : R <> L) by congruence.
  destruct (Z.eq_dec (compareEpoch L R) 0) as [Hz|Hnz]; [|destruct e].
  - (* the epoch step does not decide *)
    rewrite (versionCompare_scan_walk_value cs L R e dp cr rp) by auto.
    rewrite (versionCompare_scan_walk_value cs R L e dp cr rp)
      by (auto; rewrite compareEpoch_swap; lia).
    pose proof (segment_walk_swap cs dp L R 0) as Hw; cbn [Z.opp] in Hw.
    rewrite Hw.
    destruct (segment_walk cs dp 0 L R) as [rc|p]; [now exists rc|].
    rewrite (Nat.eqb_sym (String.length R)).
    destruct (Nat.eqb_spec (String.length L) (String.length R)) as [|Hlen]; [now exists p|].
    destruct (compareRemainder_swap L R p cr rp HL HR Hlen) as [rc [H1 H2]].
    rewrite H1, H2; now exists rc.
  - exists (compareEpoch L R); split.
    + now apply epoch_difference_decides.
    + rewrite <- compareEpoch_swap.
      apply epoch_difference_decides; auto.
      rewrite compareEpoch_swap; lia.
  - rewrite (versionCompare_scan_walk_value cs L R false dp cr rp)
      by (auto; discriminate).
    rewrite (versionCompare_scan_walk_value cs R L false dp cr rp)
      by (auto; discriminate).
    pose proof (segment_walk_swap cs dp L R 0) as Hw; cbn [Z.opp] in Hw.
    rewrite Hw.
    destruct (segment_walk cs dp 0 L R) as [rc|p]; [now exists rc|].
    rewrite (Nat.eqb_sym (String.length R)).
    destruct (Nat.eqb_spec (String.length L) (String.length R)) as [|Hlen]; [now exists p|].
    destruct (compareRemainder_swap L R p cr rp HL HR Hlen) as [rc [H1 H2]].
    rewrite H1, H2; now exists rc.
Qed.

(** C4. For all strings [a] and [b] and all four policy bits, both
    comparisons return and the sign of [compare(a, b)] is the negation of
    the sign of [compare(b, a)]. *)
Theorem versionCompare_antisymmetric (cs : bool) (a b : string)
    (e dp cr rp : bool) :
  exists ab ba,
    versionCompare cs a b e dp cr rp = Some ab
    /\ versionCompare cs b a e dp cr rp = Some ba
    /\ Z.sgn ab = - Z.sgn ba.
Proof.
  destruct (versionCompare_swap cs a b e dp cr rp) as [rc [H1 H2]].
  exists rc, (- rc); repeat split; try assumption.
  rewrite Z.sgn_opp; lia.
Qed.

(** ** Ordering by character value *)

Lemma length_append (s t : string) :
  String.length (s ++ t) = (String.length s + String.length t)%nat.
Proof.
  induction s as [|a s IH]; simpl; congruence.
Qed.

Lemma append_same_head (p s t : string) : p ++ s = p ++ t -> s = t.
Proof.
  induction p as [|a p IH]; simpl; intro H; [exact H|].
  injection H as H; auto.
Qed.

Lemma segment_walk_common_prefix (cs dp : bool) (p l r : string) :
  segment_walk cs dp 0 (p ++ l) (p ++ r) = segment_walk cs dp 0 l r.
Proof.
  induction p as [|a p IH]; [reflexivity|].
  cbn [append segment_walk].
  destruct (delimiterPrecedence a =? 0).
  - rewrite Z.sub_diag; exact IH.
  - rewrite (Z.eqb_refl (delimiterPrecedence a)), andb_false_r; exact IH.
Qed.

(** ** The scalar predicate *)

Lemma ops_member (op : string) :
  existsb (String.eqb op) ops = true <-> In op ops.
Proof.
  rewrite existsb_exists; split.
  - intros [x [Hx Heq]]. apply String.eqb_eq in Heq. now subst.
  - intro H; exists op; split; [exact H|apply String.eqb_refl].
Qed.

(** The validation of the arguments, case by case. *)
Lemma versionCompareFunc_validate_value (argv : list sqlite3_value) :
  versionCompareFunc_validate argv =
  match argv with
  | SqlText l :: SqlText op :: SqlText r :: rest =>
      if negb (existsb (String.eqb (c_str op)) ops)
      then Return (result_error operator_error)
      else if existsb bad_option (firstn 4 rest)
      then Return (result_error options_error)
      else Next (c_str op, c_str l, c_str r,
                 [resolved_option argv 3; resolved_option argv 4;
                  resolved_option argv 5; resolved_option argv 6])
  | _ => Return (result_error arguments_error)
  end.
Proof.
  destruct argv as [|a0 [|a1 [|a2 rest]]].
  { reflexivity. }
  { destruct a0; reflexivity. }
  { destruct a0; try reflexivity; destruct a1; reflexivity. }
  unfold versionCompareFunc_validate.
  cbn [List.length Nat.ltb Nat.leb arg nth_error bind].
  destruct a0; try reflexivity;
    destruct a1; try reflexivity;
    destruct a2; try reflexivity.
  cbn [sqlite3_value_type sqlite3_type_eqb negb orb sqlite3_value_text bind].
  destruct (negb (existsb (String.eqb (c_str s0)) ops)); [reflexivity|].
  unfold resolved_option.
  destruct rest as [|x0 [|x1 [|x2 [|x3 rest]]]];
    cbn [List.length Nat.min Nat.sub options_loop firstn existsb nth_error];
    rewrite ?Nat.min_0_r; cbn [options_loop Nat.sub arg nth_error bind].
  - reflexivity.
  - destruct x0; reflexivity.
  - destruct x0; try reflexivity; destruct x1; reflexivity.
  - destruct x0; try reflexivity; destruct x1; try reflexivity;
      destruct x2; reflexivity.
  - destruct x0; try reflexivity; destruct x1; try reflexivity;
      destruct x2; try reflexivity; destruct x3; reflexivity.
Qed.

Lemma bad_option_type (v : sqlite3_value) :
  bad_option v = true <->
  sqlite3_value_type v <> SQLITE_INTEGER /\ sqlite3_value_type v <> SQLITE_NULL.
Proof.
  destruct v; cbn; split; try discriminate; try (intros [H1 H2]; congruence);
    intros _; split; discriminate.
Qed.

Lemma firstn_nth_error {A : Type} (n : nat) (xs : list A) (x : A) :
  In x (firstn n xs) <-> exists j, (j < n)%nat /\ nth_error xs j = Some x.
Proof.
  revert xs; induction n as [|n IH]; intros xs.
  - cbn; split; [tauto|intros [j [Hj _]]; lia].
  - destruct xs as [|y xs]; cbn [firstn In].
    + split; [tauto|intros [[|j] [_ Hj]]; discriminate].
    + rewrite IH; split.
      * intros [->|[j [Hj Hx]]]; [exists O|exists (S j)]; split; auto; lia.
      * intros [[|j] [Hj Hx]]; cbn in Hx; [left; congruence|right].
        exists j; split; [lia|exact Hx].
Qed.

(** An invocation is either rejected by the validation, with one of the
    conditions of [invocation_rejected], or accepted with text arguments, a
    known operator and acceptable options. *)
Lemma versionCompareFunc_validate_cases (argv : list sqlite3_value) :
  (exists msg,
     versionCompareFunc_validate argv = Return (result_error msg)
     /\ invocation_rejected argv)
  \/ (exists l op r rest,
        argv = SqlText l :: SqlText op :: SqlText r :: rest
        /\ In (c_str op) ops
        /\ existsb bad_option (firstn 4 rest) = false
        /\ versionCompareFunc_validate argv =
             Next (c_str op, c_str l, c_str r,
                   [resolved_option argv 3; resolved_option argv 4;
                    resolved_option argv 5; resolved_option argv 6])
        /\ ~ invocation_rejected argv).
Proof.
  rewrite versionCompareFunc_validate_value.
  assert (Hshort : (List.length argv < 3)%nat -> invocation_rejected argv)
    by (intro; now left).
  assert (Htype : forall i v, (i < 3)%nat -> nth_error argv i = Some v ->
            sqlite3_value_type v <> SQLITE_TEXT -> invocation_rejected argv)
    by (intros i v ? ? ?; right; left; now exists i, v).
  destruct argv as [|a0 [|a1 [|a2 rest]]];
    try (left; eexists; split; [reflexivity|apply Hshort; cbn; lia]);
    try (left; eexists; split; [destruct a0; reflexivity|apply Hshort; cbn; lia]);
    try (left; eexists; split;
         [destruct a0; try reflexivity; destruct a1; reflexivity
         |apply Hshort; cbn; lia]).
  destruct a0 as [| |l| |];
    try (left; eexists; split;
         [reflexivity|apply (Htype 0%nat _ ltac:(lia) eq_refl); discriminate]).
  destruct a1 as [| |op| |];
    try (left; eexists; split;
         [reflexivity|apply (Htype 1%nat _ ltac:(lia) eq_refl); discriminate]).
  destruct a2 as [| |r| |];
    try (left; eexists; split;
         [reflexivity|apply (Htype 2%nat _ ltac:(lia) eq_refl); discriminate]).
  clear Hshort Htype.
  destruct (existsb (String.eqb (c_str op)) ops) eqn:Hop; cbn [negb].
  2:{ left; eexists; split; [reflexivity|].
      right; right; left. exists op; split; [reflexivity|].
      rewrite <- ops_member. congruence. }
  apply ops_member in Hop.
  destruct (existsb bad_option (firstn 4 rest)) eqn:Hbad.
  - left; eexists; split; [reflexivity|].
    right; right; right.
    apply existsb_exists in Hbad. destruct Hbad as [v [Hin Hv]].
    apply firstn_nth_error in Hin. destruct Hin as [j [Hj Hnth]].
    apply bad_option_type in Hv.
    exists (3 + j)%nat, v.
    split; [lia|split; [exact Hnth|exact Hv]].
  - right; exists l, op, r, rest; repeat split; try assumption.
    intros [Hlen|[[i [v [Hi [Hnth Hty]]]]|[[op' [Hnth Hop']]|[i [v [Hi [Hnth Hty]]]]]]].
    + cbn in Hlen; lia.
    + destruct i as [|[|[|i]]]; try lia; cbn in Hnth;
        injection Hnth as <-; now apply Hty.
    + cbn in Hnth. injection Hnth as <-. now apply Hop'.
    + assert (Hin : In v (firstn 4 rest)).
      { apply firstn_nth_error. exists (i - 3)%nat; split; [lia|].
        destruct i as [|[|[|i]]]; try lia.
        replace (S (S (S i)) - 3)%nat with i by lia. exact Hnth. }
      assert (Hv : bad_option v = true) by now apply bad_option_type.
      assert (Hneg : existsb bad_option (firstn 4 rest) = true)
        by (apply existsb_exists; eauto).
      congruence.
Qed.

(** When the validation accepts the arguments, the comparator runs on the
    two versions under the resolved options and its result selects the
    boolean. *)
Lemma versionCompareFunc_accepted (cs : bool) (argv : list sqlite3_value)
    (op l r : string) :
  versionCompareFunc_validate argv =
    Next (op, l, r,
          [resolved_option argv 3; resolved_option argv 4;
           resolved_option argv 5; resolved_option argv 6]) ->
  exists rc,
    versionCompare cs l r (resolved_option argv 3) (resolved_option argv 4)
      (resolved_option argv 5) (resolved_option argv 6) = Some rc
    /\ versionCompareFunc cs argv =
       Some (result_int (if operator_holds rc op then 1 else 0)).
Proof.
  intro Hv.
  destruct (versionCompare_total cs l r (resolved_option argv 3)
              (resolved_option argv 4) (resolved_option argv 5)
              (resolved_option argv 6)) as [rc Hrc].
  exists rc; split; [exact Hrc|].
  unfold versionCompareFunc.
  rewrite Hv. cbn [bind vector_get nth_error].
  rewrite Hrc. reflexivity.
Qed.

(** The five operators hold no NUL byte: the predicate reads them whole. *)
Lemma c_str_operator (op : string) : In op ops -> c_str op = op.
Proof.
  intro H. cbn in H.
  repeat (destruct H as [<-|H]; [reflexivity|]).
  contradiction.
Qed.

(** A buffer without a NUL byte is read whole. *)
Lemma c_str_without_nul (s : string) : find s zero = None -> c_str s = s.
Proof.
  induction s as [|a s IH]; [reflexivity|].
  cbn [find c_str]. destruct (Ascii.eqb a zero); [discriminate|].
  intro H. destruct (find s zero) eqn:E; [discriminate|].
  now rewrite IH.
Qed.

Lemma operator_holds_spec (rc : Z) (op : string) :
  In op ops ->
  operator_holds rc op = true <->
  (rc < 0 /\ (op = "<" \/ op = "<="))
  \/ (0 < rc /\ (op = ">" \/ op = ">="))
  \/ (rc = 0 /\ (op = "=" \/ op = "<=" \/ op = ">=")).
Proof.
  intro Hop. unfold operator_holds.
  destruct (Z.ltb_spec rc 0) as [Hneg|Hnn];
    [|destruct (Z.gtb_spec rc 0) as [Hpos|Hnp]];
    cbn in Hop;
    repeat (destruct Hop as [<-|Hop]; [cbn; split;
      [intro H; try discriminate H;
       first [left; split; [lia|tauto]
             |right; left; split; [lia|tauto]
             |right; right; split; [lia|tauto]]
      |intros [[H1 [H2|H2]]|[[H1 [H2|H2]]|[H1 [H2|[H2|H2]]]]];
       try reflexivity; try lia; try discriminate H2]|]);
    contradiction.
Qed.

(** C7. For every valid invocation (text left, operator and right, the
    operator one of the five, every option argument an integer or null),
    with [rc] the comparator's result under the resolved options on the two
    versions as the predicate reads them (C strings), the predicate returns
    true exactly when [rc < 0] and the operator is [<] or
    [<=], or [rc > 0] and the operator is [>] or [>=], or [rc = 0] and the
    operator is [=], [<=] or [>=].  In particular
    [version_compare('1.0','<','2.0')], [version_compare('1.0','=','1.0')]
    and [version_compare('1.0','>=','1.0')] are true. *)
Theorem versionCompareFunc_operator (cs : bool) :
  (forall (l op r : string) (rest : list sqlite3_value),
     let argv := SqlText l :: SqlText op :: SqlText r :: rest in
     In op ops ->
     Forall (fun v => sqlite3_value_type v = SQLITE_INTEGER
                      \/ sqlite3_value_type v = SQLITE_NULL) (firstn 4 rest) ->
     exists (rc : Z) (result : bool),
       versionCompare cs (c_str l) (c_str r)
         (resolved_option argv 3) (resolved_option argv 4)
         (resolved_option argv 5) (resolved_option argv 6) = Some rc
       /\ versionCompareFunc cs argv = Some (result_int (if result then 1 else 0))
       /\ (result = true <->
           (rc < 0 /\ (op = "<" \/ op = "<="))
           \/ (0 < rc /\ (op = ">" \/ op = ">="))
           \/ (rc = 0 /\ (op = "=" \/ op = "<=" \/ op = ">="))))
  /\ versionCompareFunc cs [SqlText "1.0"; SqlText "<"; SqlText "2.0"]
     = Some (result_int 1)
  /\ versionCompareFunc cs [SqlText "1.0"; SqlText "="; SqlText "1.0"]
     = Some (result_int 1)
  /\ versionCompareFunc cs [SqlText "1.0"; SqlText ">="; SqlText "1.0"]
     = Some (result_int 1).
Proof.
  split; [|destruct cs; repeat split; reflexivity].
  intros l op r rest argv Hop Hopts.
  destruct (versionCompareFunc_validate_cases argv)
    as [[msg [_ Hrej]]|[l' [op' [r' [rest' [Hargv [_ [_ [Hv _]]]]]]]]].
  - exfalso.
    destruct Hrej as [Hlen|[[i [v [Hi [Hnth Hty]]]]|[[op' [Hnth Hop']]|[i [v [Hi [Hnth Hty]]]]]]].
    + cbn in Hlen; lia.
    + destruct i as [|[|[|i]]]; try lia; cbn in Hnth;
        injection Hnth as <-; now apply Hty.
    + cbn in Hnth. injection Hnth as <-.
      rewrite (c_str_operator op Hop) in Hop'. now apply Hop'.
    + rewrite Forall_forall in Hopts.
      destruct (Hopts v); [|tauto|tauto].
      apply firstn_nth_error. exists (i - 3)%nat; split; [lia|].
      destruct i as [|[|[|i]]]; try lia.
      replace (S (S (S i)) - 3)%nat with i by lia. exact Hnth.
  - injection Hargv as <- <- <- <-.
    destruct (versionCompareFunc_accepted cs argv (c_str op) (c_str l) (c_str r) Hv)
      as [rc [Hrc Hres]].
    rewrite (c_str_operator op Hop) in Hres.
    exists rc, (operator_holds rc op); repeat split; try assumption;
      now apply operator_holds_spec.
Qed.

(** C8. The predicate leaves an error, and nothing else, exactly when fewer
    than three arguments are given, or one of the first three is not text, or
    the operator (as the predicate reads it) is not one of the five, or one of the arguments at positions
    4 to 7 is neither an integer nor null.  The error is the outcome of the
    validation, which precedes the call of the comparator.  When the
    validation accepts the arguments the options are the resolved ones, and a
    resolved option is true only for an integer argument whose C [int] value
    is not zero: an absent or null option is false. *)
Theorem versionCompareFunc_errors (cs : bool) (argv : list sqlite3_value) :
  ((exists msg, versionCompareFunc cs argv = Some (result_error msg))
   <-> invocation_rejected argv)
  /\ (forall msg,
        versionCompareFunc cs argv = Some (result_error msg)
        <-> versionCompareFunc_validate argv = Return (result_error msg))
  /\ match versionCompareFunc_validate argv with
     | Return _ => True
     | Next (_, _, _, options) =>
         options = [resolved_option argv 3; resolved_option argv 4;
                    resolved_option argv 5; resolved_option argv 6]
     | Undefined => False
     end
  /\ (forall i,
        resolved_option argv i = true
        <-> exists z, nth_error argv i = Some (SqlInteger z)
                      /\ int_of_int64 z <> 0).
Proof.
  assert (Hres : forall i,
            resolved_option argv i = true
            <-> exists z, nth_error argv i = Some (SqlInteger z)
                          /\ int_of_int64 z <> 0).
  { intro i; unfold resolved_option.
    destruct (nth_error argv i) as [[z| | | |]|]; split;
      try discriminate; try (intros [z' [H _]]; discriminate).
    - intro H. exists z; split; [reflexivity|].
      apply negb_true_iff, Z.eqb_neq in H. exact H.
    - intros [z' [H Hz]]. injection H as <-.
      now apply negb_true_iff, Z.eqb_neq. }
  destruct (versionCompareFunc_validate_cases argv)
    as [[msg [Hv Hrej]]|[l [op [r [rest [Hargv [Hop [Hbad [Hv Hok]]]]]]]]].
  - assert (Hf : versionCompareFunc cs argv = Some (result_error msg))
      by (unfold versionCompareFunc; rewrite Hv; reflexivity).
    rewrite Hv, Hf. repeat split; auto.
    + now exists msg.
    + congruence.
    + congruence.
    + apply Hres.
    + apply Hres.
  - destruct (versionCompareFunc_accepted cs argv (c_str op) (c_str l) (c_str r) Hv)
      as [rc [_ Hf]].
    rewrite Hv, Hf. repeat split; auto; try discriminate.
    + intros [msg H]; discriminate.
    + tauto.
    + apply Hres.
    + apply Hres.
Qed.

(** ** The collations *)

(** C6. Each collation callback is the comparator under its preset of
    (epoch, delim_precedence, comp_remaining, remainder_precedence), result
    unchanged: generic (false, false, false, false), arch (true, false, true,
    true), dpkg (true, true, false, false), rhel (true, true, true, false);
    registration binds them to the names [version], [version_arch],
    [version_dpkg] and [version_rhel]. *)
Theorem collations_use_presets (cs : bool) :
  (forall k1 k2,
     versionCollate cs k1 k2 = versionCompare cs k1 k2 false false false false
     /\ versionCollateARCH cs k1 k2 = versionCompare cs k1 k2 true false true true
     /\ versionCollateDPKG cs k1 k2 = versionCompare cs k1 k2 true true false false
     /\ versionCollateRHEL cs k1 k2 = versionCompare cs k1 k2 true true true false)
  /\ (forall db,
        let registered := collations (registerVersionExtensions cs db) in
        find_collation registered "version" = Some (versionCollate cs)
        /\ find_collation registered "version_arch" = Some (versionCollateARCH cs)
        /\ find_collation registered "version_dpkg" = Some (versionCollateDPKG cs)
        /\ find_collation registered "version_rhel" = Some (versionCollateRHEL cs)).
Proof.
  split.
  - intros k1 k2; repeat split.
  - intro db; repeat split.
Qed.

(** ** The results fit a C [int] *)

Lemma get_some_length (s : string) (i : nat) (c : ascii) :
  String.get i s = Some c -> (i < String.length s)%nat.
Proof.
  revert i; induction s as [|a s IH]; intros i H.
  - destruct i; discriminate.
  - destruct i as [|i]; cbn [String.length]; [lia|].
    cbn in H. apply IH in H. lia.
Qed.

Lemma some_eq {A : Type} (x y : A) : Some x = Some y -> x = y.
Proof.
  congruence.
Qed.

Lemma compareEpoch_range (l r : string) :
  - Z.max 1 (Z.of_nat (String.length r)) <= compareEpoch l r
    <= Z.max 1 (Z.of_nat (String.length l)).
Proof.
  unfold compareEpoch.
  destruct (find l ":"%char) as [i|] eqn:Hi, (find r ":"%char) as [j|] eqn:Hj;
    try lia.
  apply find_position in Hi, Hj.
  destruct Hi as [Hi _], Hj as [Hj _].
  apply get_some_length in Hi, Hj. lia.
Qed.

Lemma segment_walk_range (cs dp : bool) (l r : string) (fd : Z) :
  -383 <= fd <= 383 ->
  match segment_walk cs dp fd l r with
  | Decided rc => -383 <= rc <= 383
  | Exhausted pending => -383 <= pending <= 383
  end.
Proof.
  revert r fd; induction l as [|a l IH]; intros r fd Hfd; [exact Hfd|].
  destruct r as [|b r]; [exact Hfd|].
  cbn [segment_walk].
  pose proof (int_of_char_range cs a); pose proof (int_of_char_range cs b).
  pose proof (delimiterPrecedence_range a); pose proof (delimiterPrecedence_range b).
  destruct (delimiterPrecedence a =? 0), (delimiterPrecedence b =? 0); try lia.
  - apply IH. destruct (fd =? 0); lia.
  - destruct (negb (fd =? 0)); [exact Hfd|].
    destruct (dp && negb (delimiterPrecedence a =? delimiterPrecedence b)); [lia|].
    now apply IH.
Qed.

(** With both lengths in the range of [int], as the parameters [l_len] and
    [r_len] require, the result computed in [Z] lies in the range of [int]:
    no conversion in the C code changes it. *)
Lemma versionCompare_int_range (cs : bool) (l r : string) (e dp cr rp : bool)
    (rc : Z) :
  Z.of_nat (String.length l) <= 2 ^ 31 - 1 ->
  Z.of_nat (String.length r) <= 2 ^ 31 - 1 ->
  versionCompare cs l r e dp cr rp = Some rc ->
  - 2 ^ 31 <= rc <= 2 ^ 31 - 1.
Proof.
  intros Hl Hr Hrc.
  destruct l as [|a l].
  { destruct r; injection Hrc as <-; lia. }
  destruct r as [|b r]; [injection Hrc as <-; lia|].
  set (L := String a l) in *; set (R := String b r) in *.
  assert (HL : L <> EmptyString) by discriminate.
  assert (HR : R <> EmptyString) by discriminate.
  destruct (string_dec L R) as [Heq|Hne].
  { rewrite Heq, versionCompare_refl in Hrc. injection Hrc as <-; lia. }
  pose proof (compareEpoch_range L R) as Hep.
  assert (Hscan : forall e', (e' = true -> compareEpoch L R = 0) ->
            versionCompare cs L R e' dp cr rp = Some rc ->
            - 2 ^ 31 <= rc <= 2 ^ 31 - 1).
  { intros e' He' H.
    rewrite versionCompare_scan_walk_value in H by assumption.
    pose proof (segment_walk_range cs dp L R 0 ltac:(lia)) as Hw.
    destruct (segment_walk cs dp 0 L R) as [rc'|p]; [injection H as <-; lia|].
    destruct (Nat.eqb_spec (String.length L) (String.length R)) as [|Hlen];
      [injection H as <-; lia|].
    destruct (compareRemainder_value L R p cr rp HL HR Hlen)
      as [_ [c [d [_ [_ Hrem]]]]].
    rewrite Hrem in H. cbn [returned] in H.
    apply some_eq in H; subst rc.
    repeat match goal with
           | |- context [if ?x then _ else _] => destruct x
           end; lia. }
  destruct e; [|apply (Hscan false); [discriminate|exact Hrc]].
  destruct (Z.eq_dec (compareEpoch L R) 0) as [Hz|Hnz].
  - apply (Hscan true); auto.
  - rewrite epoch_difference_decides in Hrc by assumption.
    apply some_eq in Hrc; subst rc. lia.
Qed.

(** ** Instances *)

(** The remainder rule of the specification at a tilde: the shorter string
    is the greater one. *)
Lemma versionCompare_remainder_witness :
  versionCompare true "1.0" "1.0~" true true true false = Some 1.
Proof.
  destruct (versionCompare_remainder true "1.0" "1.0~" true true true false 0)
    as [c [d [Hc [_ H]]]];
    [discriminate | discriminate | discriminate
    | intros _; reflexivity | reflexivity | ].
  cbn in Hc. injection Hc as <-.
  exact H.
Defined.

(** Epoch dominance: the string that holds an epoch wins outright. *)
Lemma versionCompare_epoch_witness :
  exists rc,
    versionCompare true "2:1.0" "9.9" true true true false = Some rc /\ 0 < rc.
Proof.
  apply (versionCompare_epoch true "2:1.0" "9.9" true true false); discriminate.
Defined.

Lemma compareRemainder_in_bounds_witness :
  (1 <= 3)%nat /\ (3 < 5)%nat /\ (3 - 1 < 3)%nat
  /\ (exists c, at_index (R := Z) "1.0.1" 3 = Next c)
  /\ (exists d, at_index_minus_one (R := Z) "1.0" 3 = Next d)
  /\ (exists rc, compareRemainder "1.0" "1.0.1" 3 0 true false = Return rc)
  /\ (exists rc, versionCompare true "1.0" "1.0.1" true true true false = Some rc).
Proof.
  destruct (compareRemainder_in_bounds true "1.0" "1.0.1" 0 true false)
    as (H1 & H2 & H3 & H4 & H5 & H6 & H7); try discriminate.
  repeat split; try assumption.
  exact (H7 true true).
Defined.

Lemma versionCompareFunc_operator_witness :
  exists (rc : Z) (result : bool),
    versionCompare true "1.0" "2.0" false false false false = Some rc
    /\ versionCompareFunc true [SqlText "1.0"; SqlText "<"; SqlText "2.0"]
       = Some (result_int (if result then 1 else 0))
    /\ (result = true <->
        (rc < 0 /\ ("<" = "<" \/ "<" = "<="))
        \/ (0 < rc /\ ("<" = ">" \/ "<" = ">="))
        \/ (rc = 0 /\ ("<" = "=" \/ "<" = "<=" \/ "<" = ">="))).
Proof.
  apply (proj1 (versionCompareFunc_operator true) "1.0" "<" "2.0" []).
  - left; reflexivity.
  - constructor.
Defined.

(** ** Where the order is not that of the byte values *)

(** C5, as stated, fails.  ["ab"] and ["b"] first differ at position 0, where
    both hold an ordinary character and the left byte is the smaller one;
    under the generic policy the comparison is nevertheless positive, on
    either kind of platform: the scan ends after the one common position and
    the length difference is returned. *)
Lemma versionCompare_byte_order_counterexample :
  String.get 0 "ab" = Some "a"%char
  /\ String.get 0 "b" = Some "b"%char
  /\ delimiterPrecedence "a" = 0
  /\ delimiterPrecedence "b" = 0
  /\ Z.sgn (byte_value "a" - byte_value "b") = -1
  /\ versionCompare true "ab" "b" false false false false = Some 1
  /\ versionCompare false "ab" "b" false false false false = Some 1.
Proof.
  repeat split.
Qed.

(** A byte of value 0x80 or above against a letter on a signed-[char]
    platform: the byte is the larger one as an unsigned value, and the
    comparison is negative. *)
Lemma versionCompare_high_byte_signed :
  versionCompare true (String (ascii_of_nat 128) EmptyString) "a"
    false false false false = Some (-225)
  /\ versionCompare false (String (ascii_of_nat 128) EmptyString) "a"
       false false false false = Some 31.
Proof.
  split; reflexivity.
Qed.

(** * Further properties of the comparator *)

(** ** The delimiter classifier *)

Lemma delimiterPrecedence_delimiter (c : ascii) :
  delimiterPrecedence c <> 0 <->
  c = "~"%char \/ c = "-"%char \/ c = "^"%char \/ c = "."%char \/ c = ":"%char.
Proof.
  unfold delimiterPrecedence.
  destruct (Ascii.eqb_spec c "~"); [subst; cbn; intuition discriminate|].
  destruct (Ascii.eqb_spec c "-"); [subst; cbn; intuition discriminate|].
  destruct (Ascii.eqb_spec c "^"); [subst; cbn; intuition discriminate|].
  destruct (Ascii.eqb_spec c "."); [subst; cbn; intuition discriminate|].
  destruct (Ascii.eqb_spec c ":"); [subst; cbn; intuition discriminate|].
  intuition congruence.
Qed.

Lemma delimiterPrecedence_inj (a b : ascii) :
  delimiterPrecedence a <> 0 ->
  delimiterPrecedence a = delimiterPrecedence b -> a = b.
Proof.
  intros Ha Hab.
  assert (Hb : delimiterPrecedence b <> 0) by congruence.
  apply delimiterPrecedence_delimiter in Ha, Hb.
  destruct Ha as [->|[->|[->|[->| ->]]]];
    destruct Hb as [->|[->|[->|[->| ->]]]];
    try reflexivity; discriminate Hab.
Qed.

(** X1. The classifier returns a rank between 0 and 5; the rank is not 0
    exactly for the five delimiters, which are ranked tilde 1, hyphen 2,
    caret 3, dot 4, colon 5; two characters of the same non-zero rank are the
    same character. *)
Theorem delimiterPrecedence_contract :
  (forall c, 0 <= delimiterPrecedence c <= 5)
  /\ (forall c,
        delimiterPrecedence c <> 0 <->
        c = "~"%char \/ c = "-"%char \/ c = "^"%char \/ c = "."%char
        \/ c = ":"%char)
  /\ delimiterPrecedence "~" = 1 /\ delimiterPrecedence "-" = 2
  /\ delimiterPrecedence "^" = 3 /\ delimiterPrecedence "." = 4
  /\ delimiterPrecedence ":" = 5
  /\ (forall a b,
        delimiterPrecedence a = delimiterPrecedence b ->
        a = b \/ (delimiterPrecedence a = 0 /\ delimiterPrecedence b = 0)).
Proof.
  split; [exact delimiterPrecedence_range|].
  split; [exact delimiterPrecedence_delimiter|].
  repeat (split; [reflexivity|]).
  intros a b Hab.
  destruct (Z.eq_dec (delimiterPrecedence a) 0) as [Hz|Hnz].
  - right; split; congruence.
  - left; now apply delimiterPrecedence_inj.
Qed.

(** ** The comparison with the remainder rules switched off *)

Lemma segments_plain_walk (cs dp : bool) (l r : string) (fd : Z) :
  segments_plain cs dp fd l r =
  match segment_walk cs dp fd l r with
  | Decided rc => rc
  | Exhausted pending =>
      if Nat.eqb (String.length l) (String.length r) then pending
      else Z.of_nat (String.length l) - Z.of_nat (String.length r)
  end.
Proof.
  revert r fd; induction l as [|a l IH]; intros r fd.
  - destruct r; cbn [segments_plain segment_walk String.length Nat.eqb]; lia.
  - destruct r as [|b r];
      [cbn [segments_plain segment_walk String.length Nat.eqb]; lia|].
    cbn [segments_plain segment_walk].
    assert (Hlen : forall p,
              (if Nat.eqb (String.length (String a l)) (String.length (String b r))
               then p
               else Z.of_nat (String.length (String a l))
                    - Z.of_nat (String.length (String b r)))
              = (if Nat.eqb (String.length l) (String.length r) then p
                 else Z.of_nat (String.length l) - Z.of_nat (String.length r))).
    { intro p. cbn [String.length Nat.eqb].
      destruct (Nat.eqb (String.length l) (String.length r)); lia. }
    destruct (delimiterPrecedence a =? 0), (delimiterPrecedence b =? 0);
      try reflexivity.
    + rewrite IH. destruct (segment_walk cs dp _ l r); [reflexivity|].
      now rewrite Hlen.
    + destruct (negb (fd =? 0)); [reflexivity|].
      destruct (dp && negb (delimiterPrecedence a =? delimiterPrecedence b));
        [reflexivity|].
      rewrite IH. destruct (segment_walk cs dp fd l r); [reflexivity|].
      now rewrite Hlen.
Qed.

(** With [comp_remaining] unset the code returns [segments_plain]. *)
Lemma versionCompare_segments_plain (cs : bool) (l r : string) (dp rp : bool) :
  versionCompare_segments cs l r dp false rp =
  Return (segments_plain cs dp 0 l r).
Proof.
  rewrite versionCompare_segments_walk, segments_plain_walk.
  destruct (segment_walk cs dp 0 l r); [reflexivity|].
  destruct (Nat.eqb (String.length l) (String.length r)); reflexivity.
Qed.

Lemma versionCompare_plain (cs : bool) (l r : string) (e dp rp : bool) :
  l <> EmptyString -> r <> EmptyString -> l <> r ->
  (e = true -> compareEpoch l r = 0) ->
  versionCompare cs l r e dp false rp = Some (segments_plain cs dp 0 l r).
Proof.
  intros Hl Hr Hlr He.
  rewrite versionCompare_past_epoch by assumption.
  now rewrite versionCompare_segments_plain.
Qed.

(** ** Exchange of the arguments, size of the result *)

(** X2. Exchanging the two strings negates the result exactly, not only its
    sign, under every policy. *)
Theorem versionCompare_negates (cs : bool) (a b : string) (e dp cr rp : bool) :
  versionCompare cs b a e dp cr rp =
  option_map Z.opp (versionCompare cs a b e dp cr rp).
Proof.
  destruct (versionCompare_swap cs a b e dp cr rp) as [rc [Hab Hba]].
  rewrite Hab, Hba. reflexivity.
Qed.

Lemma compareRemainder_range (l r : string) (diff : Z) (cr rp : bool) (rc : Z) :
  l <> EmptyString -> r <> EmptyString -> String.length l <> String.length r ->
  -383 <= diff <= 383 ->
  compareRemainder l r (Nat.min (String.length l) (String.length r)) diff cr rp
    = Return rc ->
  - Z.max 383 (Z.of_nat (String.length r)) <= rc
    <= Z.max 383 (Z.of_nat (String.length l)).
Proof.
  intros Hl Hr Hlen Hdiff H.
  destruct (compareRemainder_value l r diff cr rp Hl Hr Hlen)
    as [_ [c [d [_ [_ Hrem]]]]].
  rewrite Hrem in H.
  assert (Hrc : forall x : Z, Return (A := unit) x = Return rc -> x = rc)
    by (intros x Hx; congruence).
  apply Hrc in H; subst rc.
  repeat match goal with
         | |- context [if ?x then _ else _] => destruct x
         end; lia.
Qed.

(** X3. The comparator returns on every input, and its result lies between
    minus the larger of 383 and the length of the right string, and the
    larger of 383 and the length of the left string (383 bounds the
    difference of two character values).  With both lengths in the range of
    a C [int], as the [int] parameters [l_len] and [r_len] require, the
    result is in that range too: no conversion to [int] in the code changes
    a value. *)
Theorem versionCompare_magnitude (cs : bool) (l r : string) (e dp cr rp : bool) :
  exists rc,
    versionCompare cs l r e dp cr rp = Some rc
    /\ - Z.max 383 (Z.of_nat (String.length r)) <= rc
       <= Z.max 383 (Z.of_nat (String.length l))
    /\ (Z.of_nat (String.length l) <= 2 ^ 31 - 1 ->
        Z.of_nat (String.length r) <= 2 ^ 31 - 1 ->
        - 2 ^ 31 <= rc <= 2 ^ 31 - 1).
Proof.
  destruct (versionCompare_total cs l r e dp cr rp) as [rc Hrc].
  exists rc; split; [exact Hrc|].
  assert (Hb : - Z.max 383 (Z.of_nat (String.length r)) <= rc
               <= Z.max 383 (Z.of_nat (String.length l))); [|split; [exact Hb|lia]].
  destruct l as [|a l].
  { destruct r; apply some_eq in Hrc; subst rc; lia. }
  destruct r as [|b r]; [apply some_eq in Hrc; subst rc; lia|].
  set (L := String a l) in *; set (R := String b r) in *.
  assert (HL : L <> EmptyString) by discriminate.
  assert (HR : R <> EmptyString) by discriminate.
  destruct (string_dec L R) as [Heq|Hne].
  { rewrite Heq, versionCompare_refl in Hrc. apply some_eq in Hrc; subst rc; lia. }
  pose proof (compareEpoch_range L R) as Hep.
  assert (Hscan : forall e', (e' = true -> compareEpoch L R = 0) ->
            versionCompare cs L R e' dp cr rp = Some rc ->
            - Z.max 383 (Z.of_nat (String.length R)) <= rc
            <= Z.max 383 (Z.of_nat (String.length L))).
  { intros e' He' H.
    rewrite versionCompare_scan_walk_value in H by assumption.
    pose proof (segment_walk_range cs dp L R 0 ltac:(lia)) as Hw.
    destruct (segment_walk cs dp 0 L R) as [rc'|p];
      [apply some_eq in H; subst rc; lia|].
    destruct (Nat.eqb_spec (String.length L) (String.length R)) as [|Hlen];
      [apply some_eq in H; subst rc; lia|].
    destruct (compareRemainder_value L R p cr rp HL HR Hlen)
      as [_ [c [d [_ [_ Hrem]]]]].
    apply (compareRemainder_range L R p cr rp rc HL HR Hlen Hw).
    rewrite Hrem in *. cbn [returned] in H. now apply some_eq in H; subst rc. }
  destruct e; [|apply (Hscan false); [discriminate|exact Hrc]].
  destruct (Z.eq_dec (compareEpoch L R) 0) as [Hz|Hnz].
  - apply (Hscan true); auto.
  - rewrite epoch_difference_decides in Hrc by assumption.
    apply some_eq in Hrc; subst rc. lia.
Qed.

(** ** A string against one of its extensions *)

Lemma append_empty_right (s : string) : s ++ EmptyString = s.
Proof.
  induction s as [|a s IH]; cbn; congruence.
Qed.

Lemma find_append (s t : string) (c : ascii) :
  find (s ++ t) c =
  match find s c with
  | Some i => Some i
  | None => option_map (Nat.add (String.length s)) (find t c)
  end.
Proof.
  induction s as [|a s IH]; cbn [append find String.length].
  - destruct (find t c); reflexivity.
  - destruct (Ascii.eqb a c); [reflexivity|].
    rewrite IH. destruct (find s c); [reflexivity|].
    destruct (find t c); reflexivity.
Qed.

Lemma get_append_length (s t : string) (c : ascii) :
  String.get (String.length s) (s ++ String c t) = Some c.
Proof.
  induction s as [|a s IH]; [reflexivity|exact IH].
Qed.

Lemma segment_walk_extension (cs dp : bool) (s x : string) :
  segment_walk cs dp 0 s (s ++ x) = Exhausted 0.
Proof.
  rewrite <- (append_empty_right s) at 1.
  rewrite segment_walk_common_prefix.
  reflexivity.
Qed.

(** The scan and the remainder resolver on a non-empty string and one of its
    proper extensions. *)
Lemma versionCompare_segments_extension (cs : bool) (s t : string) (c : ascii)
    (dp cr rp : bool) :
  s <> EmptyString ->
  versionCompare_segments cs s (s ++ String c t) dp cr rp =
  Return
    (if cr then
       if Ascii.eqb c "~" then 1
       else if Ascii.eqb c "-" then 0
       else if Ascii.eqb c "^" then -1
       else - (1 + Z.of_nat (String.length t))
     else - (1 + Z.of_nat (String.length t))).
Proof.
  intro Hs.
  assert (Hlen : String.length (s ++ String c t)
                 = (String.length s + S (String.length t))%nat)
    by (rewrite length_append; reflexivity).
  assert (Hne : String.length s <> String.length (s ++ String c t)) by lia.
  assert (Hr : s ++ String c t <> EmptyString) by (destruct s; discriminate).
  rewrite versionCompare_segments_walk, segment_walk_extension.
  destruct (Nat.eqb_spec (String.length s) (String.length (s ++ String c t)));
    [contradiction|].
  destruct (compareRemainder_value s (s ++ String c t) 0 cr rp Hs Hr Hne)
    as [_ [c' [d [Hc [_ Hrem]]]]].
  rewrite Hrem; clear Hrem.
  destruct (Nat.ltb_spec (String.length s) (String.length (s ++ String c t)));
    [|lia].
  rewrite get_append_length in Hc. apply some_eq in Hc; subst c'.
  f_equal. rewrite Hlen.
  destruct cr; cbn [negb Z.eqb andb];
    repeat match goal with
           | |- context [if ?x then _ else _] => destruct x
           end; lia.
Qed.

(** X4. A non-empty string [s] against an extension [s ++ c :: t] of it.  With
    the epoch bit set, when [s] holds no colon and the added part holds one,
    the result is -1.  Otherwise, with [comp_remaining] unset the result is
    minus the number of added bytes; with it set, the first added byte [c]
    decides: a tilde gives 1 (the shorter string is the greater), a hyphen
    gives 0 (the two compare equal), a caret gives -1, and any other byte
    gives minus the number of added bytes.  [delim_precedence] and
    [remainder_precedence] play no part. *)
Theorem versionCompare_extension (cs : bool) (s t : string) (c : ascii)
    (e dp cr rp : bool) :
  s <> EmptyString ->
  versionCompare cs s (s ++ String c t) e dp cr rp =
  Some
    (let added := - (1 + Z.of_nat (String.length t)) in
     let by_remainder :=
       if cr then
         if Ascii.eqb c "~" then 1
         else if Ascii.eqb c "-" then 0
         else if Ascii.eqb c "^" then -1
         else added
       else added in
     match find s ":"%char, find (String c t) ":"%char with
     | None, Some _ => if e then -1 else by_remainder
     | _, _ => by_remainder
     end).
Proof.
  intro Hs; cbv zeta.
  assert (Hr : s ++ String c t <> EmptyString) by (destruct s; discriminate).
  assert (Hsr : s <> s ++ String c t).
  { intro H. apply (f_equal String.length) in H.
    rewrite length_append in H. cbn in H. lia. }
  assert (Hep : compareEpoch s (s ++ String c t) =
                match find s ":"%char, find (String c t) ":"%char with
                | None, Some _ => -1
                | _, _ => 0
                end).
  { unfold compareEpoch. rewrite find_append.
    destruct (find s ":"%char) as [i|]; [lia|].
    destruct (find (String c t) ":"%char); reflexivity. }
  pose proof (versionCompare_segments_extension cs s t c dp cr rp Hs) as Hseg.
  destruct e.
  - destruct (find s ":"%char) as [i|] eqn:Hi;
      [|destruct (find (String c t) ":"%char) as [j|] eqn:Hj].
    + rewrite versionCompare_past_epoch by (auto; intros _; exact Hep).
      rewrite Hseg; reflexivity.
    + rewrite epoch_difference_decides by (auto; rewrite Hep; discriminate).
      now rewrite Hep.
    + rewrite versionCompare_past_epoch by (auto; intros _; exact Hep).
      rewrite Hseg; reflexivity.
  - rewrite versionCompare_past_epoch by (auto; discriminate).
    rewrite Hseg.
    destruct (find s ":"%char); [reflexivity|].
    destruct (find (String c t) ":"%char); reflexivity.
Qed.

(** The release suffix after a hyphen is ignored by the rhel collation. *)
Lemma versionCompare_extension_witness :
  versionCompare true "1.0" "1.0-5.el9" true true true false = Some 0.
Proof.
  apply (versionCompare_extension true "1.0" "5.el9" "-" true true true false).
  discriminate.
Defined.

(** ** The first position at which two strings differ *)

(** X5. Two strings with a common prefix [p] that differ at the next
    position, where at least one of them holds a delimiter, compared under a
    policy whose epoch step does not decide: if the left byte is ordinary the
    result is 1 and if the right byte is ordinary it is -1, whatever follows
    and whatever the other policy bits are; if both bytes are delimiters and
    [delim_precedence] is set, the result is the left rank minus the right
    rank, which is not zero. *)
Theorem versionCompare_first_delimiter (cs : bool) (p l' r' : string)
    (a b : ascii) (e dp cr rp : bool) :
  a <> b ->
  delimiterPrecedence a <> 0 \/ delimiterPrecedence b <> 0 ->
  (delimiterPrecedence a <> 0 -> delimiterPrecedence b <> 0 -> dp = true) ->
  (e = true -> compareEpoch (p ++ String a l') (p ++ String b r') = 0) ->
  versionCompare cs (p ++ String a l') (p ++ String b r') e dp cr rp =
    Some (if delimiterPrecedence a =? 0 then 1
          else if delimiterPrecedence b =? 0 then -1
          else delimiterPrecedence a - delimiterPrecedence b)
  /\ (if delimiterPrecedence a =? 0 then 1
      else if delimiterPrecedence b =? 0 then -1
      else delimiterPrecedence a - delimiterPrecedence b) <> 0.
Proof.
  intros Hab Hdelim Hdp He.
  split.
  - rewrite versionCompare_scan_walk_value; try assumption.
    + rewrite segment_walk_common_prefix. cbn [segment_walk].
      destruct (Z.eqb_spec (delimiterPrecedence a) 0) as [Ha|Ha],
               (Z.eqb_spec (delimiterPrecedence b) 0) as [Hb|Hb];
        try reflexivity; [tauto|].
      cbn [Z.eqb negb]. rewrite (Hdp Ha Hb). cbn [andb].
      destruct (Z.eqb_spec (delimiterPrecedence a) (delimiterPrecedence b))
        as [Heq|Hne]; [|reflexivity].
      exfalso. apply Hab. now apply delimiterPrecedence_inj.
    + destruct p; discriminate.
    + destruct p; discriminate.
    + intro H; apply append_same_head in H; congruence.
  - destruct (Z.eqb_spec (delimiterPrecedence a) 0) as [Ha|Ha]; [lia|].
    destruct (Z.eqb_spec (delimiterPrecedence b) 0) as [Hb|Hb]; [lia|].
    intro H. apply Hab. apply delimiterPrecedence_inj; [exact Ha|lia].
Qed.

(** An unterminated run outranks a string that delimits at that position. *)
Lemma versionCompare_first_delimiter_witness :
  versionCompare true "1.0a" "1.0.9" true true true true = Some 1 /\ 1 <> 0.
Proof.
  apply (versionCompare_first_delimiter true "1.0" "" "9" "a" "."
           true true true true).
  - discriminate.
  - right; discriminate.
  - reflexivity.
  - reflexivity.
Defined.

(** ** Which strings compare equal *)

Lemma same_shape_refl (s : string) : same_shape s s = true.
Proof.
  induction s as [|a s IH]; [reflexivity|].
  cbn [same_shape]. rewrite IH, Ascii.eqb_refl.
  destruct (Z.eqb_spec (delimiterPrecedence a) 0); reflexivity.
Qed.

Lemma same_shape_length (l r : string) :
  same_shape l r = true -> String.length l = String.length r.
Proof.
  revert r; induction l as [|a l IH]; intros [|b r] H; try discriminate;
    [reflexivity|].
  cbn [same_shape] in H. apply andb_true_iff in H. destruct H as [_ H].
  cbn [String.length]. f_equal. now apply IH.
Qed.

Lemma segments_plain_zero_shape (cs : bool) (fd : Z) (l r : string) :
  segments_plain cs false fd l r = 0 <-> fd = 0 /\ same_shape l r = true.
Proof.
  revert fd r; induction l as [|a l IH]; intros fd [|b r];
    cbn [segments_plain same_shape String.length].
  - intuition.
  - split; [lia|intros [_ H]; discriminate].
  - split; [lia|intros [_ H]; discriminate].
  - destruct (Z.eqb_spec (delimiterPrecedence a) 0) as [Ha|Ha],
             (Z.eqb_spec (delimiterPrecedence b) 0) as [Hb|Hb];
      cbn [negb andb].
    + rewrite IH, andb_true_iff.
      destruct (Z.eqb_spec fd 0) as [Hfd|Hfd].
      * destruct (Ascii.eqb_spec a b) as [->|Hab].
        -- rewrite Z.sub_diag. intuition.
        -- split; [intros [H _]|intros [_ [H _]]; discriminate].
           exfalso. apply Hab, (int_of_char_inj cs). lia.
      * intuition.
    + split; [discriminate|intros [_ H]].
      apply andb_true_iff in H. destruct H as [H _].
      apply Ascii.eqb_eq in H. congruence.
    + split; [discriminate|intros [_ H]; discriminate].
    + destruct (Z.eqb_spec fd 0) as [Hfd|Hfd]; cbn [negb].
      * rewrite IH. intuition.
      * intuition.
Qed.

Lemma segments_plain_zero_eq (cs : bool) (fd : Z) (l r : string) :
  segments_plain cs true fd l r = 0 <-> fd = 0 /\ l = r.
Proof.
  revert fd r; induction l as [|a l IH]; intros fd [|b r];
    cbn [segments_plain String.length].
  - intuition.
  - split; [lia|intros [_ H]; discriminate].
  - split; [lia|intros [_ H]; discriminate].
  - destruct (Z.eqb_spec (delimiterPrecedence a) 0) as [Ha|Ha],
             (Z.eqb_spec (delimiterPrecedence b) 0) as [Hb|Hb];
      cbn [negb andb].
    + rewrite IH.
      destruct (Z.eqb_spec fd 0) as [Hfd|Hfd].
      * split.
        -- intros [H ->]. split; [exact Hfd|].
           f_equal. apply (int_of_char_inj cs). lia.
        -- intros [_ H]. injection H as -> ->. split; [lia|reflexivity].
      * split; [tauto|intros [H _]; contradiction].
    + split; [discriminate|intros [_ H]; congruence].
    + split; [discriminate|intros [_ H]; congruence].
    + destruct (Z.eqb_spec fd 0) as [Hfd|Hfd]; cbn [negb];
        [|split; [tauto|intros [H _]; contradiction]].
      destruct (Z.eqb_spec (delimiterPrecedence a) (delimiterPrecedence b))
        as [Heq|Hne]; cbn [negb].
      * rewrite IH. split.
        -- intros [_ ->]. split; [exact Hfd|].
           f_equal. now apply delimiterPrecedence_inj.
        -- intros [_ H]. injection H as -> ->. split; [exact Hfd|reflexivity].
      * split; [lia|intros [_ H]; congruence].
Qed.

(** For strings of the same length the remainder resolver is not called:
    the two remainder bits change nothing. *)
Lemma versionCompare_equal_length (cs : bool) (l r : string)
    (e dp cr rp cr' rp' : bool) :
  String.length l = String.length r ->
  versionCompare cs l r e dp cr rp = versionCompare cs l r e dp cr' rp'.
Proof.
  intro Hlen.
  assert (H : versionCompare_segments cs l r dp cr rp
              = versionCompare_segments cs l r dp cr' rp').
  { rewrite !versionCompare_segments_walk.
    apply Nat.eqb_eq in Hlen. rewrite Hlen. reflexivity. }
  unfold versionCompare, versionCompare_body.
  rewrite H. reflexivity.
Qed.

(** The result, whatever the strings, with [comp_remaining] unset. *)
Lemma versionCompare_plain_cases (cs : bool) (l r : string) (e dp rp : bool) :
  (l = r /\ versionCompare cs l r e dp false rp = Some 0)
  \/ (l <> r /\ l = EmptyString /\ versionCompare cs l r e dp false rp = Some (-1))
  \/ (l <> r /\ r = EmptyString /\ versionCompare cs l r e dp false rp = Some 1)
  \/ (l <> r /\ l <> EmptyString /\ r <> EmptyString
      /\ e = true /\ compareEpoch l r <> 0
      /\ versionCompare cs l r e dp false rp = Some (compareEpoch l r))
  \/ (l <> r /\ l <> EmptyString /\ r <> EmptyString
      /\ (e = true -> compareEpoch l r = 0)
      /\ versionCompare cs l r e dp false rp = Some (segments_plain cs dp 0 l r)).
Proof.
  destruct (string_dec l r) as [Heq|Hne].
  { left; split; [exact Heq|]. rewrite Heq. apply versionCompare_refl. }
  right.
  destruct l as [|a l]; [left; destruct r; [congruence|auto]|].
  destruct r as [|b r]; [right; left; auto|].
  right; right.
  assert (HL : String a l <> EmptyString) by discriminate.
  assert (HR : String b r <> EmptyString) by discriminate.
  destruct e.
  - destruct (Z.eq_dec (compareEpoch (String a l) (String b r)) 0) as [Hz|Hnz].
    + right. repeat split; auto. now apply versionCompare_plain.
    + left. repeat split; auto. now apply epoch_difference_decides.
  - right. repeat split; auto; try discriminate.
    apply versionCompare_plain; auto; discriminate.
Qed.

Lemma compareEpoch_refl (s : string) : compareEpoch s s = 0.
Proof.
  unfold compareEpoch. destruct (find s ":"%char); lia.
Qed.

(** X6. With [delim_precedence] and [comp_remaining] unset (the generic
    collation, with the epoch bit unset too), two strings compare equal
    exactly when they have the same shape (the same length, delimiters at
    the same positions, the same ordinary characters elsewhere) and the
    epoch step, if enabled, finds no difference: which delimiter stands at a
    position does not matter.  Strings of the same shape compare equal under
    [comp_remaining] as well. *)
Theorem versionCompare_equal_shape (cs : bool) (l r : string) (e rp : bool) :
  (versionCompare cs l r e false false rp = Some 0
   <-> same_shape l r = true /\ (e = true -> compareEpoch l r = 0))
  /\ (forall cr,
        same_shape l r = true -> (e = true -> compareEpoch l r = 0) ->
        versionCompare cs l r e false cr rp = Some 0).
Proof.
  assert (Hiff : versionCompare cs l r e false false rp = Some 0
                 <-> same_shape l r = true /\ (e = true -> compareEpoch l r = 0)).
  { destruct (versionCompare_plain_cases cs l r e false rp)
      as [[Heq H]|[[Hne [Hl H]]|[[Hne [Hr H]]|[[Hne [Hl [Hr [He [Hep H]]]]]
         |[Hne [Hl [Hr [He H]]]]]]]]; rewrite H.
    - subst r. split; [intros _|reflexivity].
      split; [apply same_shape_refl|intros _; apply compareEpoch_refl].
    - subst l. split; [discriminate|intros [Hs _]].
      destruct r; [congruence|discriminate].
    - subst r. split; [discriminate|intros [Hs _]].
      destruct l; [congruence|discriminate].
    - split; [intro H0; apply some_eq in H0; contradiction|].
      intros [_ H0]. now specialize (H0 He).
    - split.
      + intro H0. apply some_eq in H0.
        apply segments_plain_zero_shape in H0. tauto.
      + intros [Hs _]. f_equal. apply segments_plain_zero_shape. auto. }
  split; [exact Hiff|].
  intros cr Hs He.
  rewrite (versionCompare_equal_length cs l r e false cr rp false rp)
    by now apply same_shape_length.
  apply Hiff. auto.
Qed.

(** X7. With [delim_precedence] set and [comp_remaining] unset (the dpkg
    collation), whatever the other two bits, two strings compare equal
    exactly when they are the same string. *)
Theorem versionCompare_equal_identical (cs : bool) (l r : string) (e rp : bool) :
  versionCompare cs l r e true false rp = Some 0 <-> l = r.
Proof.
  destruct (versionCompare_plain_cases cs l r e true rp)
    as [[Heq H]|[[Hne [Hl H]]|[[Hne [Hr H]]|[[Hne [Hl [Hr [He [Hep H]]]]]
       |[Hne [Hl [Hr [He H]]]]]]]]; rewrite H.
  - tauto.
  - split; [discriminate|contradiction].
  - split; [discriminate|contradiction].
  - split; [intro H0; apply some_eq in H0; contradiction|contradiction].
  - split; [|contradiction].
    intro H0. apply some_eq in H0.
    apply segments_plain_zero_eq in H0. tauto.
Qed.

(** ** Transitivity without the remainder rules *)

Lemma pending_consistent_step (u v w P Q R : Z) :
  pending_consistent u v w ->
  pending_consistent (if u =? 0 then P - Q else u)
                     (if v =? 0 then Q - R else v)
                     (if w =? 0 then P - R else w).
Proof.
  unfold pending_consistent.
  destruct (Z.eqb_spec u 0), (Z.eqb_spec v 0), (Z.eqb_spec w 0); lia.
Qed.

Ltac split_tests :=
  repeat match goal with
         | |- context [Z.eqb ?x ?y] => destruct (Z.eqb_spec x y)
         | H : context [Z.eqb ?x ?y] |- _ => destruct (Z.eqb_spec x y)
         end;
  cbn [negb andb] in *.

Lemma segments_plain_trans (cs dp : bool) (a b c : string) (u v w : Z) :
  pending_consistent u v w ->
  segments_plain cs dp u a b <= 0 ->
  segments_plain cs dp v b c <= 0 ->
  segments_plain cs dp w a c <= 0.
Proof.
  revert b c u v w; induction a as [|x a IH]; intros [|y b] [|z c] u v w J;
    cbn [segments_plain String.length]; try (unfold pending_consistent in J; lia).
  intros H1 H2.
  destruct (Z.eqb_spec (delimiterPrecedence x) 0) as [Hx|Hx],
           (Z.eqb_spec (delimiterPrecedence y) 0) as [Hy|Hy],
           (Z.eqb_spec (delimiterPrecedence z) 0) as [Hz|Hz]; try lia.
  - exact (IH b c _ _ _ (pending_consistent_step u v w _ _ _ J) H1 H2).
  - pose proof J as J'. unfold pending_consistent in J'.
    destruct dp; split_tests; try lia;
      exact (IH b c u v w J H1 H2).
Qed.

Lemma compareEpoch_key (l r : string) :
  (compareEpoch l r < 0 <-> epoch_key l < epoch_key r)
  /\ (compareEpoch l r = 0 <-> epoch_key l = epoch_key r).
Proof.
  unfold compareEpoch, epoch_key.
  destruct (find l ":"%char), (find r ":"%char); lia.
Qed.

(** The result on two distinct non-empty strings with [comp_remaining]
    unset: decided by the epoch keys when the epoch bit is set and they
    differ, and by the scan otherwise. *)
Lemma versionCompare_plain_key (cs : bool) (l r : string) (e dp rp : bool) :
  l <> EmptyString -> r <> EmptyString -> l <> r ->
  exists rc,
    versionCompare cs l r e dp false rp = Some rc
    /\ ((e = true /\ epoch_key l < epoch_key r /\ rc < 0)
        \/ (e = true /\ epoch_key r < epoch_key l /\ 0 < rc)
        \/ ((e = false \/ epoch_key l = epoch_key r)
            /\ rc = segments_plain cs dp 0 l r)).
Proof.
  intros Hl Hr Hlr.
  destruct (compareEpoch_key l r) as [Hlt Heq].
  destruct e.
  - destruct (Z.eq_dec (compareEpoch l r) 0) as [Hz|Hnz].
    + exists (segments_plain cs dp 0 l r); split.
      * now apply versionCompare_plain.
      * right; right; split; [right; tauto|reflexivity].
    + exists (compareEpoch l r); split.
      * now apply epoch_difference_decides.
      * destruct (Z.lt_ge_cases (compareEpoch l r) 0) as [Hneg|Hpos].
        -- left. tauto.
        -- right; left. repeat split; lia.
  - exists (segments_plain cs dp 0 l r); split.
    + apply versionCompare_plain; auto; discriminate.
    + right; right; split; [left|]; reflexivity.
Qed.

Lemma pending_consistent_zero : pending_consistent 0 0 0.
Proof.
  unfold pending_consistent; lia.
Qed.

Lemma versionCompare_le_trans (cs : bool) (a b c : string) (e dp rp : bool)
    (x y : Z) :
  versionCompare cs a b e dp false rp = Some x ->
  versionCompare cs b c e dp false rp = Some y ->
  x <= 0 -> y <= 0 ->
  exists z, versionCompare cs a c e dp false rp = Some z /\ z <= 0.
Proof.
  intros Hab Hbc Hx Hy.
  destruct a as [|a0 a].
  { destruct c; [exists 0|exists (-1)]; split; try reflexivity; lia. }
  destruct b as [|b0 b].
  { apply some_eq in Hab. lia. }
  destruct c as [|c0 c].
  { apply some_eq in Hbc. lia. }
  set (A := String a0 a) in *; set (B := String b0 b) in *;
    set (C := String c0 c) in *.
  assert (HA : A <> EmptyString) by discriminate.
  assert (HB : B <> EmptyString) by discriminate.
  assert (HC : C <> EmptyString) by discriminate.
  destruct (string_dec A B) as [HAB|HAB].
  { rewrite HAB. exists y; auto. }
  destruct (string_dec B C) as [HBC|HBC].
  { rewrite <- HBC. exists x; auto. }
  destruct (string_dec A C) as [HAC|HAC].
  { rewrite HAC, versionCompare_refl. exists 0; split; [reflexivity|lia]. }
  destruct (versionCompare_plain_key cs A B e dp rp HA HB HAB) as [x' [Hab' Kab]].
  destruct (versionCompare_plain_key cs B C e dp rp HB HC HBC) as [y' [Hbc' Kbc]].
  destruct (versionCompare_plain_key cs A C e dp rp HA HC HAC) as [z [Hac Kac]].
  assert (x' = x) by congruence. assert (y' = y) by congruence. subst x' y'.
  exists z; split; [exact Hac|].
  pose proof (segments_plain_trans cs dp A B C 0 0 0 pending_consistent_zero)
    as Htrans.
  destruct Kab as [(Ea & Ka & Xa)|[(Ea & Ka & Xa)|[[Ea|Ka] Xa]]];
    destruct Kbc as [(Eb & Kb & Xb)|[(Eb & Kb & Xb)|[[Eb|Kb] Xb]]];
    destruct Kac as [(Ec & Kc & Xc)|[(Ec & Kc & Xc)|[[Ec|Kc] Xc]]];
    try congruence; try lia;
    subst x y z; apply Htrans; assumption.
Qed.

(** X8. With [comp_remaining] unset (the generic and the dpkg collations,
    and every policy that leaves the bit unset), the comparison is
    transitive: if [a] is not greater than [b] and [b] is not greater than
    [c], then [a] is not greater than [c], and [a] is smaller than [c] as
    soon as one of the two is strict.  With the exchange of arguments (X2)
    this makes the comparison a total preorder. *)
Theorem versionCompare_transitive (cs : bool) (a b c : string) (e dp rp : bool)
    (x y : Z) :
  versionCompare cs a b e dp false rp = Some x ->
  versionCompare cs b c e dp false rp = Some y ->
  x <= 0 -> y <= 0 ->
  exists z,
    versionCompare cs a c e dp false rp = Some z
    /\ z <= 0
    /\ (x < 0 \/ y < 0 -> z < 0).
Proof.
  intros Hab Hbc Hx Hy.
  destruct (versionCompare_le_trans cs a b c e dp rp x y Hab Hbc Hx Hy)
    as [z [Hac Hz]].
  exists z; repeat split; try assumption.
  intro Hstrict.
  destruct (Z.eq_dec z 0) as [Hz0|]; [subst z|lia].
  exfalso.
  destruct (versionCompare_swap cs a c e dp false rp) as [z' [Hac' Hca]].
  assert (z' = 0) by congruence. subst z'. cbn [Z.opp] in Hca.
  destruct Hstrict as [Hs|Hs].
  - (* c <= a and a <= b give c <= b, against b < c or b ~ c with a < b *)
    destruct (versionCompare_le_trans cs b c a e dp rp y 0 Hbc Hca Hy ltac:(lia))
      as [w [Hba Hw]].
    destruct (versionCompare_swap cs a b e dp false rp) as [x' [Hab' Hba']].
    assert (x' = x) by congruence. subst x'.
    assert (w = - x) by congruence. lia.
  - destruct (versionCompare_le_trans cs c a b e dp rp 0 x Hca Hab ltac:(lia) Hx)
      as [w [Hcb Hw]].
    destruct (versionCompare_swap cs b c e dp false rp) as [y' [Hbc' Hcb']].
    assert (y' = y) by congruence. subst y'.
    assert (w = - y) by congruence. lia.
Qed.

Lemma versionCompare_transitive_witness :
  exists z,
    versionCompare true "1.0" "1.9" true true false false = Some z
    /\ z <= 0
    /\ (-5 < 0 \/ -4 < 0 -> z < 0).
Proof.
  apply (versionCompare_transitive true "1.0" "1.5" "1.9" true true false
           (-5) (-4)).
  - reflexivity.
  - reflexivity.
  - lia.
  - lia.
Defined.

(** ** With the remainder rules the comparison is not transitive *)

(** X9. With [comp_remaining] set the comparison is not transitive.  Under
    the rhel preset ["9"] is smaller than ["9."] (a proper prefix), ["9."] is
    smaller than ["11"] (a delimiter against an ordinary character), and
    ["11"] is smaller than ["9"] (the pending difference of the first
    characters, returned by the remainder resolver); under the arch preset
    the same happens with ["a"], ["a1"] and ["111"]. *)
Theorem remainder_rules_cycle (cs : bool) :
  (exists x y z,
     versionCollateRHEL cs "9" "9." = Some x /\ x < 0
     /\ versionCollateRHEL cs "9." "11" = Some y /\ y < 0
     /\ versionCollateRHEL cs "11" "9" = Some z /\ z < 0)
  /\ (exists x y z,
        versionCollateARCH cs "a" "a1" = Some x /\ x < 0
        /\ versionCollateARCH cs "a1" "111" = Some y /\ y < 0
        /\ versionCollateARCH cs "111" "a" = Some z /\ z < 0).
Proof.
  split.
  - exists (-1), (-1), (-8). destruct cs; repeat split.
  - exists (-1), (-1), (-48). destruct cs; repeat split.
Qed.

(** ** Policy bits that cannot matter *)

Lemma all_ordinary_no_colon (s : string) :
  all_ordinary s = true -> find s ":"%char = None.
Proof.
  induction s as [|a s IH]; [reflexivity|].
  cbn [all_ordinary find]. intro H.
  apply andb_true_iff in H. destruct H as [Ha Hs].
  destruct (Ascii.eqb_spec a ":") as [->|_]; [discriminate Ha|].
  now rewrite IH.
Qed.

Lemma segment_walk_all_ordinary (cs dp dp' : bool) (l r : string) (fd : Z) :
  all_ordinary l = true ->
  segment_walk cs dp fd l r = segment_walk cs dp' fd l r.
Proof.
  revert r fd; induction l as [|a l IH]; intros r fd H; [reflexivity|].
  cbn [all_ordinary] in H. apply andb_true_iff in H. destruct H as [Ha Hl].
  destruct r as [|b r]; [reflexivity|].
  cbn [segment_walk]. rewrite Ha.
  destruct (delimiterPrecedence b =? 0); [now apply IH|reflexivity].
Qed.

(** X10. Which policy bits can change a result.  [remainder_precedence] has
    no effect unless [comp_remaining] is set; for two strings of the same
    length neither of these two bits has any effect; for two strings without
    any delimiter the epoch and [delim_precedence] bits have no effect. *)
Theorem versionCompare_policy_independence (cs : bool) (l r : string)
    (e dp cr rp : bool) :
  (forall rp', versionCompare cs l r e dp false rp
               = versionCompare cs l r e dp false rp')
  /\ (String.length l = String.length r ->
      forall cr' rp', versionCompare cs l r e dp cr rp
                      = versionCompare cs l r e dp cr' rp')
  /\ (all_ordinary l = true -> all_ordinary r = true ->
      forall e' dp', versionCompare cs l r e dp cr rp
                     = versionCompare cs l r e' dp' cr rp).
Proof.
  split; [|split].
  - intro rp'. unfold versionCompare, versionCompare_body.
    rewrite !versionCompare_segments_plain. reflexivity.
  - intros Hlen cr' rp'. now apply versionCompare_equal_length.
  - intros Hl Hr e' dp'.
    assert (Hep : compareEpoch l r = 0).
    { unfold compareEpoch.
      now rewrite (all_ordinary_no_colon l Hl), (all_ordinary_no_colon r Hr). }
    assert (Hseg : forall d d', versionCompare_segments cs l r d cr rp
                                = versionCompare_segments cs l r d' cr rp).
    { intros d d'. rewrite !versionCompare_segments_walk.
      now rewrite (segment_walk_all_ordinary cs d d' l r 0 Hl). }
    unfold versionCompare, versionCompare_body.
    rewrite Hep, (Hseg dp dp'). cbn [Z.eqb negb].
    destruct e, e'; reflexivity.
Qed.

(** * Further properties of the scalar predicate *)

Lemma acceptable_options (rest : list sqlite3_value) :
  Forall (fun v => sqlite3_value_type v = SQLITE_INTEGER
                   \/ sqlite3_value_type v = SQLITE_NULL) (firstn 4 rest)
  <-> existsb bad_option (firstn 4 rest) = false.
Proof.
  rewrite Forall_forall. split.
  - intro H. destruct (existsb bad_option (firstn 4 rest)) eqn:E; [|reflexivity].
    apply existsb_exists in E. destruct E as [v [Hin Hv]].
    apply bad_option_type in Hv. destruct (H v Hin); tauto.
  - intros H v Hin.
    assert (Hv : bad_option v = false).
    { destruct (bad_option v) eqn:E; [|reflexivity].
      assert (existsb bad_option (firstn 4 rest) = true)
        by (apply existsb_exists; eauto).
      congruence. }
    destruct v; try discriminate Hv; cbn; auto.
Qed.

(** The outcome on three text arguments, by what the validation finds. *)
Lemma versionCompareFunc_text_value (cs : bool) (l op r : string)
    (rest : list sqlite3_value) :
  versionCompareFunc cs (SqlText l :: SqlText op :: SqlText r :: rest) =
  if negb (existsb (String.eqb (c_str op)) ops)
  then Some (result_error operator_error)
  else if existsb bad_option (firstn 4 rest) then Some (result_error options_error)
  else option_map
         (fun rc => result_int (if operator_holds rc (c_str op) then 1 else 0))
         (versionCompare cs (c_str l) (c_str r)
            (resolved_option rest 0) (resolved_option rest 1)
            (resolved_option rest 2) (resolved_option rest 3)).
Proof.
  unfold versionCompareFunc.
  rewrite versionCompareFunc_validate_value.
  destruct (negb (existsb (String.eqb (c_str op)) ops)); [reflexivity|].
  destruct (existsb bad_option (firstn 4 rest)); [reflexivity|].
  cbn [bind vector_get nth_error].
  change (resolved_option (SqlText l :: SqlText op :: SqlText r :: rest) 3)
    with (resolved_option rest 0).
  change (resolved_option (SqlText l :: SqlText op :: SqlText r :: rest) 4)
    with (resolved_option rest 1).
  change (resolved_option (SqlText l :: SqlText op :: SqlText r :: rest) 5)
    with (resolved_option rest 2).
  change (resolved_option (SqlText l :: SqlText op :: SqlText r :: rest) 6)
    with (resolved_option rest 3).
  destruct (versionCompare cs (c_str l) (c_str r)
              (resolved_option rest 0) (resolved_option rest 1)
              (resolved_option rest 2) (resolved_option rest 3)); reflexivity.
Qed.

(** X11. Exchanging the two versions and mirroring the operator leaves the
    outcome of the predicate unchanged, errors included:
    [version_compare(l,'<',r,...)] is [version_compare(r,'>',l,...)],
    [<=] mirrors to [>=], and [=] to itself. *)
Theorem versionCompareFunc_mirror (cs : bool) (l r : string)
    (rest : list sqlite3_value) :
  versionCompareFunc cs (SqlText l :: SqlText "<" :: SqlText r :: rest)
  = versionCompareFunc cs (SqlText r :: SqlText ">" :: SqlText l :: rest)
  /\ versionCompareFunc cs (SqlText l :: SqlText "<=" :: SqlText r :: rest)
     = versionCompareFunc cs (SqlText r :: SqlText ">=" :: SqlText l :: rest)
  /\ versionCompareFunc cs (SqlText l :: SqlText "=" :: SqlText r :: rest)
     = versionCompareFunc cs (SqlText r :: SqlText "=" :: SqlText l :: rest).
Proof.
  rewrite !versionCompareFunc_text_value.
  change (c_str "<") with "<". change (c_str ">") with ">".
  change (c_str "<=") with "<=". change (c_str ">=") with ">=".
  change (c_str "=") with "=".
  cbn [ops existsb String.eqb Ascii.eqb Bool.eqb orb negb].
  destruct (existsb bad_option (firstn 4 rest)); [repeat split|].
  destruct (versionCompare_swap cs (c_str l) (c_str r) (resolved_option rest 0)
              (resolved_option rest 1) (resolved_option rest 2)
              (resolved_option rest 3)) as [rc [Hlr Hrl]].
  rewrite Hlr, Hrl. cbn [option_map].
  unfold operator_holds. cbn [first_char String.length Ascii.eqb Bool.eqb
                              Nat.eqb orb andb].
  destruct (Z.ltb_spec rc 0), (Z.ltb_spec (- rc) 0),
           (Z.gtb_spec rc 0), (Z.gtb_spec (- rc) 0);
    try lia; repeat split.
Qed.

(** X12. For text versions and acceptable options, exactly one of [<], [=]
    and [>] holds, [<=] holds exactly when [<] or [=] does, and [>=] exactly
    when [>] or [=] does; the predicate answers 1 or 0. *)
Theorem versionCompareFunc_trichotomy (cs : bool) (l r : string)
    (rest : list sqlite3_value) :
  Forall (fun v => sqlite3_value_type v = SQLITE_INTEGER
                   \/ sqlite3_value_type v = SQLITE_NULL) (firstn 4 rest) ->
  exists lt eq gt : bool,
    versionCompareFunc cs (SqlText l :: SqlText "<" :: SqlText r :: rest)
      = Some (result_int (if lt then 1 else 0))
    /\ versionCompareFunc cs (SqlText l :: SqlText "=" :: SqlText r :: rest)
       = Some (result_int (if eq then 1 else 0))
    /\ versionCompareFunc cs (SqlText l :: SqlText ">" :: SqlText r :: rest)
       = Some (result_int (if gt then 1 else 0))
    /\ versionCompareFunc cs (SqlText l :: SqlText "<=" :: SqlText r :: rest)
       = Some (result_int (if lt || eq then 1 else 0))
    /\ versionCompareFunc cs (SqlText l :: SqlText ">=" :: SqlText r :: rest)
       = Some (result_int (if gt || eq then 1 else 0))
    /\ ((lt = true /\ eq = false /\ gt = false)
        \/ (lt = false /\ eq = true /\ gt = false)
        \/ (lt = false /\ eq = false /\ gt = true)).
Proof.
  intro Hopts. apply acceptable_options in Hopts.
  rewrite !versionCompareFunc_text_value, Hopts.
  change (c_str "<") with "<". change (c_str ">") with ">".
  change (c_str "<=") with "<=". change (c_str ">=") with ">=".
  change (c_str "=") with "=".
  cbn [ops existsb String.eqb Ascii.eqb Bool.eqb orb negb].
  destruct (versionCompare_total cs (c_str l) (c_str r) (resolved_option rest 0)
              (resolved_option rest 1) (resolved_option rest 2)
              (resolved_option rest 3)) as [rc Hrc].
  rewrite Hrc. cbn [option_map].
  unfold operator_holds. cbn [first_char String.length Ascii.eqb Bool.eqb
                              Nat.eqb orb andb].
  exists (rc <? 0), (rc =? 0), (rc >? 0).
  destruct (Z.ltb_spec rc 0), (Z.eqb_spec rc 0), (Z.gtb_spec rc 0);
    try lia; cbn [orb]; repeat split; tauto.
Qed.

Lemma versionCompareFunc_trichotomy_witness :
  exists lt eq gt : bool,
    versionCompareFunc true [SqlText "1.0"; SqlText "<"; SqlText "1.0~rc1"; SqlInteger 1; SqlInteger 1; SqlInteger 1]
      = Some (result_int (if lt then 1 else 0))
    /\ versionCompareFunc true [SqlText "1.0"; SqlText "="; SqlText "1.0~rc1"; SqlInteger 1; SqlInteger 1; SqlInteger 1]
       = Some (result_int (if eq then 1 else 0))
    /\ versionCompareFunc true [SqlText "1.0"; SqlText ">"; SqlText "1.0~rc1"; SqlInteger 1; SqlInteger 1; SqlInteger 1]
       = Some (result_int (if gt then 1 else 0))
    /\ versionCompareFunc true [SqlText "1.0"; SqlText "<="; SqlText "1.0~rc1"; SqlInteger 1; SqlInteger 1; SqlInteger 1]
       = Some (result_int (if lt || eq then 1 else 0))
    /\ versionCompareFunc true [SqlText "1.0"; SqlText ">="; SqlText "1.0~rc1"; SqlInteger 1; SqlInteger 1; SqlInteger 1]
       = Some (result_int (if gt || eq then 1 else 0))
    /\ ((lt = true /\ eq = false /\ gt = false)
        \/ (lt = false /\ eq = true /\ gt = false)
        \/ (lt = false /\ eq = false /\ gt = true)).
Proof.
  apply (versionCompareFunc_trichotomy true "1.0" "1.0~rc1"
           [SqlInteger 1; SqlInteger 1; SqlInteger 1]).
  repeat constructor.
Defined.

Lemma firstn_four_nth_error {A : Type} (xs : list A) (i : nat) :
  (i < 4)%nat -> nth_error (firstn 4 xs) i = nth_error xs i.
Proof.
  intro Hi.
  destruct xs as [|x0 [|x1 [|x2 [|x3 xs]]]];
    destruct i as [|[|[|[|i]]]]; try reflexivity; lia.
Qed.

Lemma firstn_four_twice {A : Type} (xs : list A) :
  firstn 4 (firstn 4 xs) = firstn 4 xs.
Proof.
  destruct xs as [|x0 [|x1 [|x2 [|x3 xs]]]]; reflexivity.
Qed.

(** X13. The predicate never looks past its seventh argument: the outcome
    on an argument list is the outcome on its first seven elements, whatever
    the further arguments are (the function is registered for any number of
    arguments). *)
Theorem versionCompareFunc_first_seven (cs : bool) (argv : list sqlite3_value) :
  versionCompareFunc cs argv = versionCompareFunc cs (firstn 7 argv).
Proof.
  destruct argv as [|a0 [|a1 [|a2 rest]]]; try reflexivity.
  change (firstn 7 (a0 :: a1 :: a2 :: rest))
    with (a0 :: a1 :: a2 :: firstn 4 rest).
  destruct a0 as [| |l| |]; try reflexivity.
  destruct a1 as [| |op| |]; try reflexivity.
  destruct a2 as [| |r| |]; try reflexivity.
  rewrite !versionCompareFunc_text_value.
  rewrite firstn_four_twice.
  unfold resolved_option.
  rewrite !firstn_four_nth_error by lia.
  reflexivity.
Qed.

(** X14. Which error the predicate leaves, and in which order the checks
    apply.  The arguments error is left exactly when fewer than three
    arguments are given or one of the first three is not text; the operator
    error exactly when the first three are text and the operator (as the
    predicate reads it, a C string) is not one of the five, whatever the
    options are; the options error exactly when the first three are text,
    the operator is one of the five and one of the next four arguments is
    neither an integer nor null. *)
Theorem versionCompareFunc_error_order (cs : bool) (argv : list sqlite3_value) :
  (versionCompareFunc cs argv = Some (result_error arguments_error)
   <-> (List.length argv < 3)%nat
       \/ exists i v, (i < 3)%nat /\ nth_error argv i = Some v
                      /\ sqlite3_value_type v <> SQLITE_TEXT)
  /\ (versionCompareFunc cs argv = Some (result_error operator_error)
      <-> exists l op r rest,
            argv = SqlText l :: SqlText op :: SqlText r :: rest
            /\ ~ In (c_str op) ops)
  /\ (versionCompareFunc cs argv = Some (result_error options_error)
      <-> exists l op r rest,
            argv = SqlText l :: SqlText op :: SqlText r :: rest
            /\ In (c_str op) ops
            /\ exists v, In v (firstn 4 rest)
                         /\ sqlite3_value_type v <> SQLITE_INTEGER
                         /\ sqlite3_value_type v <> SQLITE_NULL).
Proof.
  assert (Hshape :
    (exists l op r rest, argv = SqlText l :: SqlText op :: SqlText r :: rest)
    \/ ((forall l op r rest, argv <> SqlText l :: SqlText op :: SqlText r :: rest)
        /\ versionCompareFunc cs argv = Some (result_error arguments_error)
        /\ ((List.length argv < 3)%nat
            \/ exists i v, (i < 3)%nat /\ nth_error argv i = Some v
                           /\ sqlite3_value_type v <> SQLITE_TEXT))).
  { destruct argv as [|a0 [|a1 [|a2 rest]]];
      try (right; split; [discriminate|split; [|left; cbn; lia]];
           repeat match goal with a : sqlite3_value |- _ => destruct a end;
           reflexivity).
    destruct a0 as [| |l| |];
      try (right; split; [discriminate|split; [reflexivity|right]];
           exists 0%nat; eexists; split; [lia|split; [reflexivity|discriminate]]).
    destruct a1 as [| |op| |];
      try (right; split; [discriminate|split; [reflexivity|right]];
           exists 1%nat; eexists; split; [lia|split; [reflexivity|discriminate]]).
    destruct a2 as [| |r| |];
      try (right; split; [discriminate|split; [reflexivity|right]];
           exists 2%nat; eexists; split; [lia|split; [reflexivity|discriminate]]).
    left. now exists l, op, r, rest. }
  destruct Hshape as [[l [op [r [rest ->]]]]|[Hno [Herr Hwhy]]].
  - rewrite versionCompareFunc_text_value.
    assert (Hlen : ~ (List.length (SqlText l :: SqlText op :: SqlText r :: rest) < 3)%nat)
      by (cbn; lia).
    assert (Htext : ~ exists i v, (i < 3)%nat
              /\ nth_error (SqlText l :: SqlText op :: SqlText r :: rest) i = Some v
              /\ sqlite3_value_type v <> SQLITE_TEXT).
    { intros [i [v [Hi [Hnth Hty]]]].
      destruct i as [|[|[|i]]]; try lia; cbn in Hnth;
        apply some_eq in Hnth; subst v; now apply Hty. }
    assert (Hbad : existsb bad_option (firstn 4 rest) = true
                   <-> exists v, In v (firstn 4 rest)
                                 /\ sqlite3_value_type v <> SQLITE_INTEGER
                                 /\ sqlite3_value_type v <> SQLITE_NULL).
    { rewrite existsb_exists. split; intros [v [Hin Hv]]; exists v;
        (split; [exact Hin|now apply bad_option_type]). }
    destruct (existsb (String.eqb (c_str op)) ops) eqn:Hop; cbn [negb].
    + apply ops_member in Hop.
      destruct (existsb bad_option (firstn 4 rest)) eqn:Hb.
      * split; [|split].
        -- split; [discriminate|tauto].
        -- split; [discriminate|].
           intros [l' [op' [r' [rest' [Heq Hnot]]]]].
           injection Heq as <- <- <- <-. contradiction.
        -- split; [intros _|reflexivity].
           exists l, op, r, rest. repeat split; auto. now apply Hbad.
      * destruct (versionCompare cs (c_str l) (c_str r) (resolved_option rest 0)
                    (resolved_option rest 1) (resolved_option rest 2)
                    (resolved_option rest 3)); cbn [option_map];
          (split; [|split]);
          try (split; [discriminate|tauto]);
          try (split; [discriminate|];
               intros [l' [op' [r' [rest' [Heq Hnot]]]]];
               injection Heq as <- <- <- <-;
               first [contradiction
                     |destruct Hnot as [_ Hv]; apply Hbad in Hv; discriminate]).
    + assert (Hnot : ~ In (c_str op) ops) by (rewrite <- ops_member; congruence).
      split; [|split].
      * split; [discriminate|tauto].
      * split; [intros _|reflexivity]. now exists l, op, r, rest.
      * split; [discriminate|].
        intros [l' [op' [r' [rest' [Heq [Hin _]]]]]].
        injection Heq as <- <- <- <-. contradiction.
  - rewrite Herr. split; [|split].
    + tauto.
    + split; [discriminate|].
      intros [l [op [r [rest [Heq _]]]]]. now apply Hno in Heq.
    + split; [discriminate|].
      intros [l [op [r [rest [Heq _]]]]]. now apply Hno in Heq.
Qed.

(** X15. The predicate and the collations agree: called with the bits of a
    preset as its four options, and one of the five operators, the predicate
    answers what the operator selects from the result of the collation of
    that preset on the two versions as the predicate reads them, their bytes
    before the first NUL; with no option at all it follows the generic
    collation.  For versions that hold no NUL byte these are the versions
    themselves ([c_str_without_nul]). *)
Theorem versionCompareFunc_collations (cs : bool) (l op r : string) :
  In op ops ->
  let answer collation :=
    option_map (fun rc => result_int (if operator_holds rc op then 1 else 0))
      (collation (c_str l) (c_str r)) in
  versionCompareFunc cs [SqlText l; SqlText op; SqlText r]
    = answer (versionCollate cs)
  /\ versionCompareFunc cs
       [SqlText l; SqlText op; SqlText r;
        SqlInteger 1; SqlInteger 0; SqlInteger 1; SqlInteger 1]
     = answer (versionCollateARCH cs)
  /\ versionCompareFunc cs
       [SqlText l; SqlText op; SqlText r;
        SqlInteger 1; SqlInteger 1; SqlInteger 0; SqlInteger 0]
     = answer (versionCollateDPKG cs)
  /\ versionCompareFunc cs
       [SqlText l; SqlText op; SqlText r;
        SqlInteger 1; SqlInteger 1; SqlInteger 1; SqlInteger 0]
     = answer (versionCollateRHEL cs).
Proof.
  intro Hop. cbv zeta.
  rewrite !versionCompareFunc_text_value.
  rewrite (c_str_operator op Hop).
  apply ops_member in Hop. rewrite Hop.
  repeat split.
Qed.

(** A version with an embedded NUL: the predicate compares what precedes it,
    here ["1"] against ["1"], although the two values differ. *)
Lemma versionCompareFunc_collations_witness :
  versionCompareFunc true
    [SqlText (String "1" (String zero "2")); SqlText "="; SqlText "1"]
    = option_map
        (fun rc => result_int (if operator_holds rc "=" then 1 else 0))
        (versionCollate true "1" "1")
  /\ versionCompareFunc true
       [SqlText (String "1" (String zero "2")); SqlText "="; SqlText "1";
        SqlInteger 1; SqlInteger 0; SqlInteger 1; SqlInteger 1]
     = option_map
         (fun rc => result_int (if operator_holds rc "=" then 1 else 0))
         (versionCollateARCH true "1" "1")
  /\ versionCompareFunc true
       [SqlText (String "1" (String zero "2")); SqlText "="; SqlText "1";
        SqlInteger 1; SqlInteger 1; SqlInteger 0; SqlInteger 0]
     = option_map
         (fun rc => result_int (if operator_holds rc "=" then 1 else 0))
         (versionCollateDPKG true "1" "1")
  /\ versionCompareFunc true
       [SqlText (String "1" (String zero "2")); SqlText "="; SqlText "1";
        SqlInteger 1; SqlInteger 1; SqlInteger 1; SqlInteger 0]
     = option_map
         (fun rc => result_int (if operator_holds rc "=" then 1 else 0))
         (versionCollateRHEL true "1" "1").
Proof.
  apply (versionCompareFunc_collations true (String "1" (String zero "2"))
           "=" "1").
  right; right; left; reflexivity.
Defined.

(** X16. The predicate reads [argv] and its vector of options only inside
    their bounds and calls the SQLite accessors only on the storage classes
    it has tested for: on every argument list it leaves an outcome, an error
    or an integer that is 0 or 1. *)
Theorem versionCompareFunc_outcome (cs : bool) (argv : list sqlite3_value) :
  (exists msg, versionCompareFunc cs argv = Some (result_error msg))
  \/ versionCompareFunc cs argv = Some (result_int 0)
  \/ versionCompareFunc cs argv = Some (result_int 1).
Proof.
  destruct (versionCompareFunc_validate_cases argv)
    as [[msg [Hv _]]|[l [op [r [rest [_ [_ [_ [Hv _]]]]]]]]].
  - left. exists msg. unfold versionCompareFunc. now rewrite Hv.
  - right.
    destruct (versionCompareFunc_accepted cs argv (c_str op) (c_str l) (c_str r) Hv)
      as [rc [_ Hf]].
    rewrite Hf. destruct (operator_holds rc (c_str op)); auto.
Qed.

(** * The signedness of [char] *)

Lemma int_of_char_seven_bits (cs : bool) (c : ascii) :
  (byte_value c <? 128) = true -> int_of_char cs c = byte_value c.
Proof.
  intro H. unfold int_of_char.
  apply Z.ltb_lt in H.
  destruct (Z.leb_spec 128 (byte_value c)); [lia|].
  now rewrite andb_false_r.
Qed.

Lemma segment_walk_seven_bits (cs cs' dp : bool) (l r : string) (fd : Z) :
  all_ascii l = true -> all_ascii r = true ->
  segment_walk cs dp fd l r = segment_walk cs' dp fd l r.
Proof.
  revert r fd; induction l as [|a l IH]; intros [|b r] fd Hl Hr;
    try reflexivity.
  cbn [all_ascii] in Hl, Hr.
  apply andb_true_iff in Hl, Hr. destruct Hl as [Ha Hl], Hr as [Hb Hr].
  cbn [segment_walk].
  rewrite !(int_of_char_seven_bits cs), !(int_of_char_seven_bits cs')
    by assumption.
  destruct (delimiterPrecedence a =? 0), (delimiterPrecedence b =? 0);
    try reflexivity.
  - now apply IH.
  - destruct (negb (fd =? 0)); [reflexivity|].
    destruct (dp && negb (delimiterPrecedence a =? delimiterPrecedence b));
      [reflexivity|now apply IH].
Qed.

Lemma all_ascii_c_str (s : string) :
  all_ascii s = true -> all_ascii (c_str s) = true.
Proof.
  induction s as [|a s IH]; [reflexivity|].
  cbn [all_ascii c_str]. intro H.
  apply andb_true_iff in H. destruct H as [Ha Hs].
  destruct (Ascii.eqb a zero); [reflexivity|].
  cbn [all_ascii]. now rewrite Ha, IH.
Qed.

(** X17. On strings of 7-bit bytes the result does not depend on whether
    plain [char] is signed on the platform, under any policy; the same holds
    for the predicate on such versions. *)
Theorem versionCompare_seven_bits (cs cs' : bool) (l r : string)
    (e dp cr rp : bool) :
  all_ascii l = true -> all_ascii r = true ->
  versionCompare cs l r e dp cr rp = versionCompare cs' l r e dp cr rp
  /\ forall op rest,
       versionCompareFunc cs (SqlText l :: SqlText op :: SqlText r :: rest)
       = versionCompareFunc cs' (SqlText l :: SqlText op :: SqlText r :: rest).
Proof.
  intros Hl Hr.
  assert (H : forall l r, all_ascii l = true -> all_ascii r = true ->
            forall e dp cr rp,
            versionCompare cs l r e dp cr rp = versionCompare cs' l r e dp cr rp).
  { clear. intros l r Hl Hr e dp cr rp.
    unfold versionCompare, versionCompare_body.
    rewrite !versionCompare_segments_walk.
    now rewrite (segment_walk_seven_bits cs cs' dp l r 0 Hl Hr). }
  split; [now apply H|].
  intros op rest. rewrite !versionCompareFunc_text_value.
  now rewrite (H (c_str l) (c_str r) (all_ascii_c_str l Hl) (all_ascii_c_str r Hr)).
Qed.

Lemma versionCompare_seven_bits_witness :
  versionCompare true "1.0~rc1" "1.0-rc1" true true true false
  = versionCompare false "1.0~rc1" "1.0-rc1" true true true false
  /\ forall op rest,
       versionCompareFunc true
         (SqlText "1.0~rc1" :: SqlText op :: SqlText "1.0-rc1" :: rest)
       = versionCompareFunc false
           (SqlText "1.0~rc1" :: SqlText op :: SqlText "1.0-rc1" :: rest).
Proof.
  apply (versionCompare_seven_bits true false "1.0~rc1" "1.0-rc1"
           true true true false); reflexivity.
Defined.

(** * The epoch field *)

Lemma find_epoch_field (e x : string) :
  find e ":"%char = None ->
  find (e ++ String ":" x) ":"%char = Some (String.length e).
Proof.
  intro He. rewrite find_append, He.
  cbn [find Ascii.eqb Bool.eqb option_map]. f_equal. lia.
Qed.

(** X18. With the epoch bit set, only the length of the epoch field (the
    bytes before the first colon) is compared, never its digits: for two
    strings with epoch fields [e1] and [e2] of different lengths the result
    is the length of [e1] minus the length of [e2], whatever the fields and
    the rests are; and a string with an epoch field against a non-empty
    string without any colon gives 1. *)
Theorem epoch_field_length_decides (cs : bool) (e1 e2 x y : string)
    (dp cr rp : bool) :
  find e1 ":"%char = None -> find e2 ":"%char = None ->
  (String.length e1 <> String.length e2 ->
   versionCompare cs (e1 ++ String ":" x) (e2 ++ String ":" y) true dp cr rp
   = Some (Z.of_nat (String.length e1) - Z.of_nat (String.length e2)))
  /\ (forall s, s <> EmptyString -> find s ":"%char = None ->
      versionCompare cs (e1 ++ String ":" x) s true dp cr rp = Some 1).
Proof.
  intros H1 H2.
  assert (Hne : forall e z, e ++ String ":" z <> EmptyString)
    by (intros e z; destruct e; discriminate).
  split.
  - intro Hlen.
    assert (Hep : compareEpoch (e1 ++ String ":" x) (e2 ++ String ":" y)
                  = Z.of_nat (String.length e1) - Z.of_nat (String.length e2)).
    { unfold compareEpoch. now rewrite !find_epoch_field. }
    rewrite <- Hep. apply epoch_difference_decides; auto.
    + intro Heq. rewrite Heq, compareEpoch_refl in Hep. lia.
    + rewrite Hep. lia.
  - intros s Hs Hnone.
    assert (Hep : compareEpoch (e1 ++ String ":" x) s = 1).
    { unfold compareEpoch. now rewrite find_epoch_field, Hnone. }
    rewrite <- Hep. apply epoch_difference_decides; auto.
    + intro Heq. rewrite Heq, compareEpoch_refl in Hep. lia.
    + rewrite Hep. lia.
Qed.

(** An epoch of two digits outranks an epoch of one digit, also when it is
    numerically the same. *)
Lemma epoch_field_length_decides_witness :
  versionCompare true "09:1.0" "9:1.0" true true true false = Some 1.
Proof.
  apply (proj1 (epoch_field_length_decides true "09" "9" "1.0" "1.0"
                  true true false eq_refl eq_refl)).
  discriminate.
Defined.

(** * The first difference between two ordinary characters *)

Lemma append_associative (s t u : string) : (s ++ t) ++ u = s ++ (t ++ u).
Proof.
  induction s as [|a s IH]; cbn [append]; congruence.
Qed.

(** Every pair of rests splits into a lock-step run of ordinary/ordinary
    pairs and what stops it. *)
Lemma run_decomposition (l1 r1 : string) :
  exists sl sr tl tr,
    l1 = sl ++ tl /\ r1 = sr ++ tr
    /\ String.length sl = String.length sr
    /\ all_ordinary sl = true /\ all_ordinary sr = true
    /\ run_end tl tr = true.
Proof.
  revert r1; induction l1 as [|x l1 IH]; intros r1.
  - exists EmptyString, EmptyString, EmptyString, r1. now repeat split.
  - destruct r1 as [|y r1].
    + exists EmptyString, EmptyString, (String x l1), EmptyString.
      now repeat split.
    + destruct (delimiterPrecedence x =? 0) eqn:Hx;
        [destruct (delimiterPrecedence y =? 0) eqn:Hy|].
      * destruct (IH r1) as [sl [sr [tl [tr [-> [-> [Hlen [Hsl [Hsr Hend]]]]]]]]].
        exists (String x sl), (String y sr), tl, tr.
        cbn [append String.length all_ordinary]. rewrite Hx, Hy, Hlen, Hsl, Hsr.
        now repeat split.
      * exists EmptyString, EmptyString, (String x l1), (String y r1).
        cbn [run_end append String.length all_ordinary]. rewrite Hx, Hy.
        now repeat split.
      * exists EmptyString, EmptyString, (String x l1), (String y r1).
        cbn [run_end append String.length all_ordinary]. rewrite Hx.
        now repeat split.
Qed.

(** Once a difference is pending, a run of ordinary/ordinary pairs keeps it;
    what stops the run decides: a pair with one delimiter returns 1 or -1, a
    pair of delimiters returns the pending difference, the end of a string
    ends the loop. *)
Lemma segment_walk_run (cs dp : bool) (fd : Z) (sl sr tl tr : string) :
  fd <> 0 ->
  String.length sl = String.length sr ->
  all_ordinary sl = true -> all_ordinary sr = true ->
  run_end tl tr = true ->
  segment_walk cs dp fd (sl ++ tl) (sr ++ tr) =
  match tl, tr with
  | String x _, String y _ =>
      Decided (if delimiterPrecedence x =? 0 then 1
               else if delimiterPrecedence y =? 0 then -1
               else fd)
  | _, _ => Exhausted fd
  end.
Proof.
  intros Hfd; apply Z.eqb_neq in Hfd.
  revert sr; induction sl as [|x sl IH]; intros [|y sr] Hlen Hl Hr Hend;
    try discriminate.
  - cbn [append].
    destruct tl as [|u tl], tr as [|v tr]; try reflexivity.
    cbn [run_end] in Hend. cbn [segment_walk].
    destruct (delimiterPrecedence u =? 0), (delimiterPrecedence v =? 0);
      try reflexivity; [discriminate Hend|].
    now rewrite Hfd.
  - cbn [all_ordinary] in Hl, Hr.
    apply andb_true_iff in Hl, Hr. destruct Hl as [Hx Hl], Hr as [Hy Hr].
    cbn [append segment_walk]. rewrite Hx, Hy, Hfd.
    apply IH; auto.
Qed.

(** Where the conversion of [char] to [int] keeps the order of two bytes:
    plain [char] is unsigned, or the two bytes lie on the same side of
    0x80. *)
Lemma int_of_char_difference (cs : bool) (a b : ascii) :
  cs = false \/ (128 <=? byte_value a) = (128 <=? byte_value b) ->
  int_of_char cs a - int_of_char cs b = byte_value a - byte_value b.
Proof.
  unfold int_of_char. intros [->|H]; [reflexivity|].
  rewrite H. destruct (cs && (128 <=? byte_value b)); lia.
Qed.

(** The result by what stops the run that follows the first difference,
    with [fd] the difference the loop records there. *)
Lemma versionCompare_after_difference (cs : bool) (p sl sr tl tr : string)
    (a b : ascii) (e dp cr rp : bool) :
  a <> b ->
  delimiterPrecedence a = 0 -> delimiterPrecedence b = 0 ->
  String.length sl = String.length sr ->
  all_ordinary sl = true -> all_ordinary sr = true ->
  run_end tl tr = true ->
  (e = true ->
   compareEpoch (p ++ String a (sl ++ tl)) (p ++ String b (sr ++ tr)) = 0) ->
  let l := p ++ String a (sl ++ tl) in
  let r := p ++ String b (sr ++ tr) in
  let fd := int_of_char cs a - int_of_char cs b in
  let length_difference :=
    Z.of_nat (String.length l) - Z.of_nat (String.length r) in
  exists rc,
    versionCompare cs l r e dp cr rp = Some rc
    /\ match tl, tr with
       | EmptyString, EmptyString => rc = fd
       | String x _, String y _ =>
           rc = (if delimiterPrecedence x =? 0 then 1
                 else if delimiterPrecedence y =? 0 then -1
                 else fd)
       | EmptyString, String c _ =>
           exists last,
             String.get (Nat.pred (String.length l)) l = Some last
             /\ rc = (if negb cr then length_difference
                      else if Ascii.eqb c "~" then 1
                      else if Ascii.eqb c "-" then 0
                      else if Ascii.eqb c "^" then -1
                      else if negb rp || negb (isdigit last) then fd
                      else length_difference)
       | String c _, EmptyString =>
           exists last,
             String.get (Nat.pred (String.length r)) r = Some last
             /\ rc = (if negb cr then length_difference
                      else if Ascii.eqb c "~" then -1
                      else if Ascii.eqb c "-" then 0
                      else if Ascii.eqb c "^" then 1
                      else if negb rp || negb (isdigit last) then fd
                      else length_difference)
       end.
Proof.
  intros Hab Ha Hb Hlen Hsl Hsr Hend He; cbv zeta.
  set (l := p ++ String a (sl ++ tl)) in *.
  set (r := p ++ String b (sr ++ tr)) in *.
  set (fd := int_of_char cs a - int_of_char cs b).
  assert (Hfd : fd <> 0).
  { intro H; apply Hab, (int_of_char_inj cs); subst fd; lia. }
  assert (Hl : l <> EmptyString) by (subst l; destruct p; discriminate).
  assert (Hr : r <> EmptyString) by (subst r; destruct p; discriminate).
  assert (Hlr : l <> r).
  { subst l r; intro H; apply append_same_head in H; congruence. }
  assert (Hwalk : segment_walk cs dp 0 l r =
                  match tl, tr with
                  | String x _, String y _ =>
                      Decided (if delimiterPrecedence x =? 0 then 1
                               else if delimiterPrecedence y =? 0 then -1
                               else fd)
                  | _, _ => Exhausted fd
                  end).
  { subst l r. rewrite segment_walk_common_prefix.
    cbn [segment_walk]. rewrite Ha, Hb. cbn [Z.eqb].
    now apply segment_walk_run. }
  assert (Hll : String.length l
                = (String.length p + S (String.length sl + String.length tl))%nat).
  { subst l. rewrite length_append. cbn [String.length].
    now rewrite length_append. }
  assert (Hlr' : String.length r
                 = (String.length p + S (String.length sl + String.length tr))%nat).
  { subst r. rewrite length_append. cbn [String.length].
    now rewrite length_append, Hlen. }
  rewrite (versionCompare_scan_walk_value cs l r e dp cr rp Hl Hr Hlr He), Hwalk.
  apply Z.eqb_neq in Hfd.
  destruct tl as [|c tl], tr as [|c' tr].
  - exists fd; split; [|reflexivity].
    rewrite Hll, Hlr', Nat.eqb_refl. reflexivity.
  - (* the left string ends first *)
    cbn [String.length] in Hll, Hlr'.
    assert (Hne : String.length l <> String.length r) by lia.
    destruct (compareRemainder_value l r fd cr rp Hl Hr Hne)
      as [_ [x [last [Hx [Hlast Hrem]]]]].
    destruct (Nat.ltb_spec (String.length l) (String.length r)); [|lia].
    apply Nat.eqb_neq in Hne. rewrite Hne, Hrem.
    assert (x = c').
    { assert (Hget : String.get (String.length l) r = Some c').
      { subst l r. rewrite append_empty_right.
        replace (p ++ String b (sr ++ String c' tr))
          with ((p ++ String b sr) ++ String c' tr)
          by (rewrite append_associative; reflexivity).
        replace (String.length (p ++ String a sl))
          with (String.length (p ++ String b sr))
          by (rewrite !length_append; cbn [String.length]; lia).
        apply get_append_length. }
      congruence. }
    subst x. eexists; split; [reflexivity|].
    exists last; split; [exact Hlast|].
    rewrite Hfd. reflexivity.
  - (* the right string ends first *)
    cbn [String.length] in Hll, Hlr'.
    assert (Hne : String.length l <> String.length r) by lia.
    destruct (compareRemainder_value l r fd cr rp Hl Hr Hne)
      as [_ [x [last [Hx [Hlast Hrem]]]]].
    destruct (Nat.ltb_spec (String.length l) (String.length r)); [lia|].
    apply Nat.eqb_neq in Hne. rewrite Hne, Hrem.
    assert (x = c).
    { assert (Hget : String.get (String.length r) l = Some c).
      { subst l r. rewrite append_empty_right.
        replace (p ++ String a (sl ++ String c tl))
          with ((p ++ String a sl) ++ String c tl)
          by (rewrite append_associative; reflexivity).
        replace (String.length (p ++ String b sr))
          with (String.length (p ++ String a sl))
          by (rewrite !length_append; cbn [String.length]; lia).
        apply get_append_length. }
      congruence. }
    subst x. eexists; split; [reflexivity|].
    exists last; split; [exact Hlast|].
    rewrite Hfd. reflexivity.
  - eexists; split; reflexivity.
Qed.

(** C5 (as amended). Take any two strings whose first difference is between
    two ordinary characters [a] and [b], on which the epoch step does not
    decide, where the conversion of [char] to [int] keeps the byte values
    apart as they are (plain [char] unsigned, or [a] and [b] on the same side
    of 0x80); let [d] be the unsigned byte value of [a] minus that of [b],
    which is not zero.  The rests of the two strings split, in one way, into
    a lock-step run of ordinary/ordinary pairs and what stops it, and the
    result is:
    - [d], when both strings end with the run or a pair of delimiters stops
      it;
    - 1 or -1, for the side with the ordinary character, when a pair of an
      ordinary character and a delimiter stops it;
    - when the shorter string ends with the run: the difference of the
      lengths if [comp_remaining] is unset; otherwise, by the next byte of
      the longer string, 1 or -1 with the shorter string greater for a
      tilde, 0 for a hyphen, 1 or -1 with the longer string greater for a
      caret, and for any other byte [d] if [remainder_precedence] is unset
      or the last byte of the shorter string is not a decimal digit, else
      the difference of the lengths.
    So the sign of the result is the sign of the byte difference wherever the
    result is [d]. *)
Theorem versionCompare_byte_order (cs : bool) (p l1 r1 : string) (a b : ascii)
    (e dp cr rp : bool) :
  a <> b ->
  delimiterPrecedence a = 0 -> delimiterPrecedence b = 0 ->
  (e = true -> compareEpoch (p ++ String a l1) (p ++ String b r1) = 0) ->
  cs = false \/ (128 <=? byte_value a) = (128 <=? byte_value b) ->
  let l := p ++ String a l1 in
  let r := p ++ String b r1 in
  let d := byte_value a - byte_value b in
  let length_difference :=
    Z.of_nat (String.length l) - Z.of_nat (String.length r) in
  exists sl sr tl tr rc,
    l1 = sl ++ tl /\ r1 = sr ++ tr
    /\ String.length sl = String.length sr
    /\ all_ordinary sl = true /\ all_ordinary sr = true
    /\ run_end tl tr = true
    /\ versionCompare cs l r e dp cr rp = Some rc
    /\ d <> 0
    /\ match tl, tr with
       | EmptyString, EmptyString => rc = d
       | String x _, String y _ =>
           rc = (if delimiterPrecedence x =? 0 then 1
                 else if delimiterPrecedence y =? 0 then -1
                 else d)
       | EmptyString, String c _ =>
           exists last,
             String.get (Nat.pred (String.length l)) l = Some last
             /\ rc = (if negb cr then length_difference
                      else if Ascii.eqb c "~" then 1
                      else if Ascii.eqb c "-" then 0
                      else if Ascii.eqb c "^" then -1
                      else if negb rp || negb (isdigit last) then d
                      else length_difference)
       | String c _, EmptyString =>
           exists last,
             String.get (Nat.pred (String.length r)) r = Some last
             /\ rc = (if negb cr then length_difference
                      else if Ascii.eqb c "~" then -1
                      else if Ascii.eqb c "-" then 0
                      else if Ascii.eqb c "^" then 1
                      else if negb rp || negb (isdigit last) then d
                      else length_difference)
       end.
Proof.
  intros Hab Ha Hb He Hconv; cbv zeta.
  destruct (run_decomposition l1 r1)
    as [sl [sr [tl [tr [-> [-> [Hlen [Hsl [Hsr Hend]]]]]]]]].
  exists sl, sr, tl, tr.
  destruct (versionCompare_after_difference cs p sl sr tl tr a b e dp cr rp
              Hab Ha Hb Hlen Hsl Hsr Hend He) as [rc [Hrc Htable]].
  rewrite (int_of_char_difference cs a b Hconv) in Htable.
  exists rc. repeat (split; [first [reflexivity | assumption]|]).
  split; [|exact Htable].
  intro H. apply Hab, byte_value_inj. lia.
Qed.

(** The shorter string ends with the run, the remainder rules are on and hand
    out the pending difference: ['a' - 'c']. *)
Lemma versionCompare_byte_order_witness :
  versionCompare true "1.a" "1.ca" true true true false = Some (-2).
Proof.
  destruct (versionCompare_byte_order true "1." "" "a" "a" "c"
              true true true false)
    as (sl & sr & tl & tr & rc & H1 & H2 & Hlen & _ & _ & _ & Hrc & _ & Htab);
    [discriminate | reflexivity | reflexivity | reflexivity
    | right; reflexivity | ].
  destruct sl; [|discriminate H1]. cbn in H1. subst tl.
  destruct sr; [|discriminate Hlen]. cbn in H2. subst tr.
  destruct Htab as [last [_ Htab]].
  cbn in Htab. subst rc. exact Hrc.
Defined.

(** * The conversion of [char] to [int] in the scan *)

(** C1. Rule (1) of the scan, that the difference of the two bytes is recorded
    as the pending difference, breaks on a byte of value 0x80 or above where
    plain [char] is signed.  For the one-byte string 0x80 against ["a"], two
    ordinary characters, the byte difference is [128 - 97 = 31]; the loop
    body records [int(char(0x80)) - int('a') = -128 - 97 = -225], and the
    comparison returns -225: the left string sorts first.  Built for a
    platform with unsigned [char] the same code records and returns 31: the
    order of the same two strings depends on the platform. *)
Theorem scan_records_signed_difference :
  delimiterPrecedence (ascii_of_nat 128) = 0 /\ delimiterPrecedence "a" = 0
  /\ byte_value (ascii_of_nat 128) - byte_value "a" = 31
  /\ (forall dp,
        scan_body true (String (ascii_of_nat 128) EmptyString) "a" dp 0 0
        = Next (-225))
  /\ (forall e dp cr rp,
        versionCompare true (String (ascii_of_nat 128) EmptyString) "a"
          e dp cr rp = Some (-225))
  /\ (forall dp,
        scan_body false (String (ascii_of_nat 128) EmptyString) "a" dp 0 0
        = Next 31)
  /\ (forall e dp cr rp,
        versionCompare false (String (ascii_of_nat 128) EmptyString) "a"
          e dp cr rp = Some 31).
Proof.
  repeat split; try (intros [|]; reflexivity);
    intros [|] [|] [|] [|]; reflexivity.
Qed.

(** * The scan on byte values *)

Lemma segment_walk_bytes (cs dp : bool) (l r : string) (fd : Z) :
  cs = false \/ (all_ascii l = true /\ all_ascii r = true) ->
  segment_walk cs dp fd l r = byte_walk dp fd l r.
Proof.
  revert r fd; induction l as [|a l IH]; intros [|b r] fd H; try reflexivity.
  assert (Hconv : int_of_char cs a - int_of_char cs b
                  = byte_value a - byte_value b
                  /\ (cs = false \/ (all_ascii l = true /\ all_ascii r = true))).
  { destruct H as [->|[Hl Hr]]; [split; [reflexivity|now left]|].
    cbn [all_ascii] in Hl, Hr.
    apply andb_true_iff in Hl, Hr. destruct Hl as [Ha Hl], Hr as [Hb Hr].
    split; [|right; now split].
    now rewrite !int_of_char_seven_bits. }
  destruct Hconv as [Hconv Htail].
  cbn [segment_walk byte_walk]. rewrite Hconv.
  destruct (delimiterPrecedence a =? 0), (delimiterPrecedence b =? 0);
    try reflexivity.
  - now apply IH.
  - destruct (negb (fd =? 0)); [reflexivity|].
    destruct (dp && negb (delimiterPrecedence a =? delimiterPrecedence b));
      [reflexivity|now apply IH].
Qed.

(** X19. Where the conversion of [char] to [int] keeps the byte values (plain
    [char] unsigned, or both strings made of bytes below 0x80), the scan of
    [versionCompare] is the walk of section 4.3 of the specification on
    unsigned byte values.  For non-empty, non-identical strings on which the
    epoch step does not decide: an ordinary/ordinary pair records the left
    byte minus the right byte unless a non-zero difference is already
    pending, and goes on; an ordinary/delimiter pair returns 1 or -1 with
    the ordinary side greater; a delimiter/delimiter pair returns the pending
    difference if it is non-zero, else the rank difference if
    [delim_precedence] is set and the ranks differ, else goes on; when both
    strings end together the pending difference is the result, and otherwise
    the remainder resolver is called with it. *)
Theorem scan_follows_byte_walk (cs : bool) (l r : string) (e dp cr rp : bool) :
  l <> EmptyString -> r <> EmptyString -> l <> r ->
  (e = true -> compareEpoch l r = 0) ->
  cs = false \/ (all_ascii l = true /\ all_ascii r = true) ->
  versionCompare cs l r e dp cr rp =
  match byte_walk dp 0 l r with
  | Decided rc => Some rc
  | Exhausted pending =>
      if Nat.eqb (String.length l) (String.length r) then Some pending
      else returned (compareRemainder l r
                       (Nat.min (String.length l) (String.length r))
                       pending cr rp)
  end.
Proof.
  intros Hl Hr Hlr He Hconv.
  rewrite versionCompare_scan_walk_value by assumption.
  now rewrite (segment_walk_bytes cs dp l r 0 Hconv).
Qed.

(** Delimiter precedence: a tilde ranks below a hyphen. *)
Lemma scan_follows_byte_walk_witness :
  versionCompare true "1.0~rc1" "1.0-rc1" false true false false = Some (-1).
Proof.
  apply (scan_follows_byte_walk true "1.0~rc1" "1.0-rc1" false true false false);
    try discriminate.
  right; split; reflexivity.
Defined.
